(** * receiver-power-sync: the eISCP framer and the relay service

    A shallow embedding of [receiver_power_sync/eiscp.py] and
    [receiver_power_sync/service.py], with [validate_receiver] of
    [config.py] and the loop of [main.py].

    - Python [bytes] are [list byte]; Python [int] is [Z].
    - [None] results are [option]; raised exceptions are the [Raise] case
      of [result].
    - A connection object is the record [conn]; its methods are functions
      [conn -> outcome A] returning the result, the mutated object and the
      I/O events (writes, sleeps, log lines, ...) performed, in order.
    - The world outside the process (what the peer sends, whether a
      connect or a write succeeds) is a script carried by the connection
      and consumed by the primitive operations.  A connection the peer
      has reset stays reset: [recv] on it raises, and so does
      [shutdown]. *)

From Equations Require Import Equations.
From Equations.Prop Require Import Logic.
From Stdlib Require Import Strings.String Strings.Byte.
From Stdlib Require Import ZArith List Lia Bool.
Import ListNotations.

Set Implicit Arguments.
Open Scope Z_scope.

(** ** Python [bytes] *)

Definition bytes := list byte.

(** A [bytes] literal. *)
Definition B (s : string) : bytes := list_byte_of_string s.

Definition CR : byte := x0d.
Definition LF : byte := x0a.
Definition SUB : byte := x1a.

Definition byte_to_Z (b : byte) : Z := Z.of_N (Byte.to_N b).

Definition byte_of_Z (z : Z) : byte :=
  match Byte.of_N (Z.to_N (Z.land z 255)) with
  | Some b => b
  | None => x00
  end.

Definition len (data : bytes) : Z := Z.of_nat (length data).

(** [data.startswith(prefix)] *)
Fixpoint startswith (data prefix : bytes) {struct prefix} : bool :=
  match prefix, data with
  | [], _ => true
  | _ :: _, [] => false
  | p :: prefix', d :: data' => Byte.eqb d p && startswith data' prefix'
  end.

(** A slice bound as Python normalises it: a negative bound counts from
    the end, and every bound is clamped to [0, len]. *)
Definition slice_bound (n i : Z) : Z :=
  if i <? 0 then Z.max 0 (i + n) else Z.min i n.

(** [data[start:stop]] *)
Definition slice (data : bytes) (start stop : Z) : bytes :=
  let lo := slice_bound (len data) start in
  let hi := slice_bound (len data) stop in
  firstn (Z.to_nat (hi - lo)) (skipn (Z.to_nat lo) data).

(** [int.from_bytes(data, "big")] *)
Definition int_from_bytes_big (data : bytes) : Z :=
  fold_left (fun acc b => acc * 256 + byte_to_Z b) data 0.

(** ** eiscp.py *)

Module Eiscp.

(** The [I] field of [struct.pack(">...I...")]: four bytes, most
    significant first; [struct.error] for a value outside [0, 2^32). *)
Definition pack_I (n : Z) : option bytes :=
  if (0 <=? n) && (n <=? 4294967295) then
    Some [ byte_of_Z (Z.shiftr n 24); byte_of_Z (Z.shiftr n 16);
           byte_of_Z (Z.shiftr n 8); byte_of_Z n ]
  else None.

(** [struct.pack(f">4sIIcxxx{len(command)}sc", b"ISCP", 16,
    len(command) + 1, b"\x01", command, b"\r")]; [None] stands for the
    [struct.error] of a length field that does not fit. *)
Definition build_eiscp_packet (command : bytes) : option bytes :=
  match pack_I 16, pack_I (len command + 1) with
  | Some header_size, Some data_size =>
      Some (B "ISCP" ++ header_size ++ data_size
              ++ [x01] ++ [x00; x00; x00] ++ command ++ [CR])
  | _, _ => None
  end.

(** [extract_eiscp_header]: [None] is the bare [return] taken on a wrong
    magic.  The [logger] argument only receives a debug line and is left
    to the callers' event streams. *)
Definition extract_eiscp_header (header : bytes) : option (Z * Z) :=
  if negb (startswith header (B "ISCP")) then None
  else
    let header_size := int_from_bytes_big (slice header 4 8) in
    let data_size := int_from_bytes_big (slice header 8 12) in
    Some (header_size, data_size).

(** [extract_eiscp_message]: [if not header_data] is taken only for
    [None], a 2-tuple being truthy whatever it holds. *)
Definition extract_eiscp_message (data : bytes) : option bytes :=
  match extract_eiscp_header data with
  | None => None
  | Some (header_size, data_size) =>
      Some (slice data header_size (header_size + data_size - 1))
  end.

End Eiscp.

(** ** service.py: exceptions, events and the connection object *)

(** The exception classes the code raises, catches or can be handed by
    the socket and serial libraries.  All are subclasses of [Exception];
    none but [ConnectionResetError] is a [ConnectionResetError]. *)
Inductive exn : Type :=
| ConnectionResetError
| ConnectionClosedException
| TypeError
| AttributeError
| StructError
| SerialException
| OSError.

Definition is_ConnectionResetError (e : exn) : bool :=
  match e with ConnectionResetError => true | _ => false end.

(** [except Exception] *)
Definition is_Exception (e : exn) : bool := true.

Inductive result (A : Type) : Type :=
| Ok (a : A)
| Raise (e : exn).
Arguments Ok {A} a.
Arguments Raise {A} e.

Inductive Mode : Type := EISCP | TCP | Serial.

(** [ReceiverConfig]; the fields a mode does not use are ignored. *)
Record ReceiverConfig : Type := {
  mode : Mode;
  ip : string;
  tcp_port : Z;
  serial_port : string
}.

Inductive level : Type := DEBUG | INFO | WARNING | ERROR.

(** What a method does to the outside world, in order.  [Sleep] is in
    milliseconds.  [Write] is a completed [sendall] / [write]. *)
Inductive event : Type :=
| Log (l : level) (msg : string)
| Sleep (ms : Z)
| Connect (rc : ReceiverConfig)
| ConnectFailed (rc : ReceiverConfig) (e : exn)
| Close (rc : ReceiverConfig)
| Write (rc : ReceiverConfig) (wire : bytes)
| WriteFailed (rc : ReceiverConfig) (wire : bytes) (e : exn).

(** What the peer does next, as the reading side observes it:
    a byte arrives; nothing arrives for the length of one wait
    ([select] timeout or [sleep]); the peer closed the stream ([recv]
    returns [b""]); the peer has reset the connection ([recv] raises).
    The last two are states of the connection and stay pending. *)
Inductive rd : Type :=
| Byte (b : byte)
| Quiet
| Eof
| Reset.

Inductive socket : Type := Socket.

(** A [ReceiverConnection] object.  [sock] is the attribute of the two
    TCP classes, [ser] the one of the serial class ([Some o] is a
    [Serial] object whose [is_open] is [o]).  The three scripts are the
    outside world: the outcome of each coming connect attempt and write
    ([None]: it succeeds; an exhausted script: it succeeds) and what the
    peer sends.  The [message_callback] attribute is an argument of
    [listen_step] below. *)
Record conn : Type := {
  rec_config : ReceiverConfig;
  connected : bool;
  sock : option socket;
  ser : option bool;
  connect_env : list (option exn);
  write_env : list (option exn);
  inbox : list rd
}.

Definition set_connected (v : bool) (c : conn) : conn :=
  {| rec_config := rec_config c; connected := v; sock := sock c; ser := ser c;
     connect_env := connect_env c; write_env := write_env c; inbox := inbox c |}.

Definition set_sock (v : option socket) (c : conn) : conn :=
  {| rec_config := rec_config c; connected := connected c; sock := v; ser := ser c;
     connect_env := connect_env c; write_env := write_env c; inbox := inbox c |}.

Definition set_ser (v : option bool) (c : conn) : conn :=
  {| rec_config := rec_config c; connected := connected c; sock := sock c; ser := v;
     connect_env := connect_env c; write_env := write_env c; inbox := inbox c |}.

Definition set_connect_env (v : list (option exn)) (c : conn) : conn :=
  {| rec_config := rec_config c; connected := connected c; sock := sock c; ser := ser c;
     connect_env := v; write_env := write_env c; inbox := inbox c |}.

Definition set_write_env (v : list (option exn)) (c : conn) : conn :=
  {| rec_config := rec_config c; connected := connected c; sock := sock c; ser := ser c;
     connect_env := connect_env c; write_env := v; inbox := inbox c |}.

Definition set_inbox (v : list rd) (c : conn) : conn :=
  {| rec_config := rec_config c; connected := connected c; sock := sock c; ser := ser c;
     connect_env := connect_env c; write_env := write_env c; inbox := v |}.

(** ** Methods: state, exceptions and an event stream *)

Definition outcome (A : Type) : Type := (result A * conn * list event)%type.

Definition M (A : Type) : Type := conn -> outcome A.

Definition ret {A} (a : A) : M A := fun c => (Ok a, c, []).

Definition raise {A} (e : exn) : M A := fun c => (Raise e, c, []).

Definition bind {A B} (m : M A) (k : A -> M B) : M B := fun c =>
  match m c with
  | (Ok a, c1, ev1) =>
      match k a c1 with (r, c2, ev2) => (r, c2, ev1 ++ ev2) end
  | (Raise e, c1, ev1) => (Raise e, c1, ev1)
  end.

Notation "x <- m ;; k" := (bind m (fun x => k))
  (at level 61, m at next level, right associativity).
Notation "m ;; k" := (bind m (fun _ => k))
  (at level 61, right associativity).

Definition emit (e : event) : M unit := fun c => (Ok tt, c, [e]).

Definition get : M conn := fun c => (Ok c, c, []).

Definition modify (f : conn -> conn) : M unit := fun c => (Ok tt, f c, []).

(** [try: m  except <catches>: handler]; the handler runs on the object
    as the failed body left it. *)
Definition try_except {A} (m : M A) (catches : exn -> bool)
  (handler : exn -> M A) : M A :=
  fun c =>
    match m c with
    | (Ok a, c1, ev1) => (Ok a, c1, ev1)
    | (Raise e, c1, ev1) =>
        if catches e then
          match handler e c1 with (r, c2, ev2) => (r, c2, ev1 ++ ev2) end
        else (Raise e, c1, ev1)
    end.

(** The events of an enclosing computation put before an outcome. *)
Definition after {A} (ev : list event) (o : outcome A) : outcome A :=
  match o with (r, c, ev') => (r, c, ev ++ ev') end.

(** ** The outside world: primitive operations *)

(** [time.sleep] *)
Definition sleep (ms : Z) : M unit := emit (Sleep ms).

(** [sock.connect(...)], [serial.Serial(...)] or [ser.open()]: one
    connect attempt, whose outcome the script decides. *)
Definition os_connect : M unit := fun c =>
  match connect_env c with
  | Some e :: rest =>
      (Raise e, set_connect_env rest c, [ConnectFailed (rec_config c) e])
  | None :: rest => (Ok tt, set_connect_env rest c, [Connect (rec_config c)])
  | [] => (Ok tt, c, [Connect (rec_config c)])
  end.

(** A write on an open handle, [ser.write(wire)] for one: its outcome
    is the script's. *)
Definition os_write (wire : bytes) : M unit := fun c =>
  match write_env c with
  | Some e :: rest =>
      (Raise e, set_write_env rest c, [WriteFailed (rec_config c) wire e])
  | None :: rest => (Ok tt, set_write_env rest c, [Write (rec_config c) wire])
  | [] => (Ok tt, c, [Write (rec_config c) wire])
  end.

(** The peer's reset becomes what is pending on the socket. *)
Definition mark_reset (c : conn) : conn := set_inbox (Reset :: inbox c) c.

(** [sock.sendall(wire)].  A write that fails with
    [ConnectionResetError] has found the connection reset by the peer,
    and reset it stays. *)
Definition sock_sendall (wire : bytes) : M unit := fun c =>
  match os_write wire c with
  | (Raise e, c1, ev) =>
      (Raise e, if is_ConnectionResetError e then mark_reset c1 else c1, ev)
  | (Ok u, c1, ev) => (Ok u, c1, ev)
  end.

(** [sock.shutdown(socket.SHUT_RDWR)]: on a connection the peer has
    reset it raises [OSError] (ENOTCONN); after the peer's orderly close
    it succeeds. *)
Definition sock_shutdown : M unit := fun c =>
  match inbox c with
  | Reset :: _ => (Raise OSError, c, [])
  | _ => (Ok tt, c, [])
  end.

(** [select.select([self.sock], [], [], timeout)[0]]: readable when a
    byte, the end of the stream or a reset is pending; a [Quiet] is one
    wait that expires.  A [None] in the list is a [TypeError]. *)
Definition select_readable : M bool := fun c =>
  match sock c with
  | None => (Raise TypeError, c, [])
  | Some _ =>
      match inbox c with
      | Quiet :: rest => (Ok false, set_inbox rest c, [])
      | [] => (Ok false, c, [])
      | _ :: _ => (Ok true, c, [])
      end
  end.

(** [self.sock.recv(1)].  The code calls it on a readable socket only;
    on a silent one (where the call would block) the model answers
    [b""]. *)
Definition recv_1 : M bytes := fun c =>
  match sock c with
  | None => (Raise AttributeError, c, [])
  | Some _ =>
      match inbox c with
      | Byte b :: rest => (Ok [b], set_inbox rest c, [])
      | Reset :: _ => (Raise ConnectionResetError, c, [])
      | Eof :: _ => (Ok [], c, [])
      | Quiet :: _ => (Ok [], c, [])
      | [] => (Ok [], c, [])
      end
  end.

(** [self.ser.in_waiting > 0].  On a closed port the property raises
    [TypeError] (the port's file descriptor is [None]). *)
Definition in_waiting_positive : M bool := fun c =>
  match ser c with
  | None => (Raise AttributeError, c, [])
  | Some false => (Raise TypeError, c, [])
  | Some true =>
      match inbox c with
      | Byte _ :: _ => (Ok true, c, [])
      | _ => (Ok false, c, [])
      end
  end.

(** [self.ser.read(1)] with the port's 0.1 s timeout: [b""] when
    nothing arrives. *)
Definition ser_read_1 : M bytes := fun c =>
  match ser c with
  | None => (Raise AttributeError, c, [])
  | Some false => (Raise SerialException, c, [])
  | Some true =>
      match inbox c with
      | Byte b :: rest => (Ok [b], set_inbox rest c, [])
      | Quiet :: rest => (Ok [], set_inbox rest c, [])
      | _ => (Ok [], c, [])
      end
  end.

(** The 0.1 s the serial poll sleeps through: one [Quiet] goes by. *)
Definition poll_sleep : M unit := fun c =>
  match inbox c with
  | Quiet :: rest => (Ok tt, set_inbox rest c, [Sleep 100])
  | _ => (Ok tt, c, [Sleep 100])
  end.

(** ** Helpers on [bytes] used by the service *)

Fixpoint bytes_eqb (x y : bytes) : bool :=
  match x, y with
  | [], [] => true
  | a :: x', b :: y' => Byte.eqb a b && bytes_eqb x' y'
  | _, _ => false
  end.

Definition is_terminator (b : byte) : bool :=
  Byte.eqb b CR || Byte.eqb b LF || Byte.eqb b SUB.

(** [data in (b"\r", b"\n", b"\x1A")] *)
Definition in_terminators (data : bytes) : bool :=
  bytes_eqb data [CR] || bytes_eqb data [LF] || bytes_eqb data [SUB].

(** [message.endswith(b"\r") or message.endswith(b"\n") or
    message.endswith(b"\x1A")] *)
Definition endswith_terminator (message : bytes) : bool :=
  match rev message with
  | [] => false
  | b :: _ => is_terminator b
  end.

Lemma endswith_terminator_shorter (message : bytes) :
  endswith_terminator message = true ->
  (length (removelast message) < length message)%nat.
Proof.
  unfold endswith_terminator.
  destruct message as [|b m] using rev_ind; [discriminate|].
  intros _. rewrite removelast_last, length_app. simpl. lia.
Qed.

(** [while message.endswith(...): message = message[:-1]] *)
Equations? strip_terminators (message : bytes) : bytes
  by wf (length message) lt :=
strip_terminators message with inspect (endswith_terminator message) := {
  | exist _ true H => strip_terminators (removelast message)
  | exist _ false _ => message }.
Proof. now apply endswith_terminator_shorter. Qed.

(** ** class EiscpConnection *)

Module EiscpConnection.

Definition _connect_to_receiver : M unit :=
  try_except
    (c <- get ;;
     (match sock c with
      | None => modify (set_sock (Some Socket))
      | Some _ => ret tt
      end) ;;
     os_connect ;;
     emit (Log INFO "Connected to receiver at: %s:%s"))
    is_Exception
    (fun err =>
       emit (Log ERROR "unable to connect to receiver: %s:%s") ;;
       raise err) ;;
  modify (set_connected true).

(** [shutdown] is not guarded: when it raises, the socket is neither
    closed nor dropped and [connected] stays as it is. *)
Definition _disconnect : M unit :=
  c <- get ;;
  if connected c then
    match sock c with
    | None => raise AttributeError
    | Some _ =>
        sock_shutdown ;;
        emit (Close (rec_config c)) ;;
        modify (set_sock None) ;;
        modify (set_connected false) ;;
        emit (Log INFO "disconnected from receiver")
    end
  else ret tt.

Definition check_for_message : M bool := select_readable.

(** [_tcp_grab_bytes]: [None] on a timeout, the bytes read otherwise
    (fewer than asked for if the peer closed the stream). *)
Fixpoint grab_loop (n : nat) (data : bytes) : M (option bytes) :=
  match n with
  | O => ret (Some data)
  | S n' =>
      ready <- select_readable ;;
      if ready then
        d <- recv_1 ;;
        grab_loop n' (data ++ d)
      else ret None
  end.

Definition _tcp_grab_bytes (num_bytes : Z) : M (option bytes) :=
  grab_loop (Z.to_nat num_bytes) [].

Definition _prep_message_for_receiver (message : bytes) : M bytes :=
  match Eiscp.build_eiscp_packet message with
  | Some packet => ret packet
  | None => raise StructError
  end.

Definition _send_message_to_receiver (message : bytes) : M unit :=
  c <- get ;;
  match sock c with
  | None => raise AttributeError
  | Some _ => sock_sendall message
  end.

(** [pass] *)
Definition _get_one_byte : M (option bytes) := ret None.

Lemma select_inbox c r c1 ev :
  check_for_message c = (r, c1, ev) ->
  (length (inbox c1) <= length (inbox c))%nat.
Proof.
  destruct c as [rc cn [sk|] sr ce we [|[b| | |] ib]]; cbn;
    inversion 1; subst; cbn; lia.
Qed.

Lemma grab_one_inbox c b data c1 ev :
  _tcp_grab_bytes 1 c = (Ok (Some (b :: data)), c1, ev) ->
  (length (inbox c1) < length (inbox c))%nat.
Proof.
  destruct c as [rc cn [sk|] sr ce we [|[b'| | |] ib]]; cbn;
    inversion 1; subst; cbn; lia.
Qed.

(** The first loop of [get_message]: bytes are read one at a time until
    an [I] comes; the result is the [header] so far, [b"I"] or, when
    nothing more is readable, [b""]. *)
Equations? header_loop (c : conn) : outcome bytes
  by wf (length (inbox c)) lt :=
header_loop c with inspect (check_for_message c) := {
  | exist _ (Raise e, c1, ev1) _ => (Raise e, c1, ev1)
  | exist _ (Ok false, c1, ev1) _ => (Ok [], c1, ev1)
  | exist _ (Ok true, c1, ev1) H1 with inspect (_tcp_grab_bytes 1 c1) := {
    | exist _ (Raise e, c2, ev2) _ => (Raise e, c2, ev1 ++ ev2)
    | exist _ (Ok None, c2, ev2) _ =>
        (Raise ConnectionClosedException, c2, ev1 ++ ev2)
    | exist _ (Ok (Some []), c2, ev2) _ =>
        (Raise ConnectionClosedException, c2, ev1 ++ ev2)
    | exist _ (Ok (Some (b :: data)), c2, ev2) H2 =>
        if bytes_eqb (b :: data) (B "I") then
          (Ok (b :: data), c2, ev1 ++ ev2)
        else after (ev1 ++ ev2) (header_loop c2) } }.
Proof.
  apply select_inbox in H1. apply grab_one_inbox in H2. lia.
Qed.

(** [get_message].  [header += self._tcp_grab_bytes(15)] adds [None] to
    a [bytes] when the read times out, which is a [TypeError]. *)
Definition get_message : M (option bytes) :=
  header <- header_loop ;;
  rest <- _tcp_grab_bytes 15 ;;
  match rest with
  | None => raise TypeError
  | Some rest =>
      let header := header ++ rest in
      match Eiscp.extract_eiscp_header header with
      | None =>
          emit (Log DEBUG "eISCP wrong beginning data: %s") ;;
          emit (Log DEBUG "request did not have a valid header") ;;
          ret None
      | Some (header_size, data_size) =>
          (if 16 <? header_size then
             _ <- _tcp_grab_bytes (header_size - 16) ;; ret tt
           else ret tt) ;;
          message <- _tcp_grab_bytes data_size ;;
          match message with
          | None | Some [] =>
              emit (Log DEBUG "request did not contain data segment") ;;
              ret None
          | Some message =>
              let message := strip_terminators message in
              emit (Log DEBUG "request message was %s") ;;
              if negb (startswith message (B "!1")) then
                emit (Log DEBUG "request message did not begin with !1") ;;
                ret None
              else ret (Some message)
          end
      end
  end.

End EiscpConnection.

(** ** class IscpTcpConnection *)

Module IscpTcpConnection.

Definition _disconnect : M unit :=
  c <- get ;;
  if connected c then
    match sock c with
    | None => raise AttributeError
    | Some _ =>
        sock_shutdown ;;
        emit (Close (rec_config c)) ;;
        modify (set_sock None) ;;
        modify (set_connected false) ;;
        emit (Log INFO "disconnected from receiver")
    end
  else ret tt.

Definition _connect_to_receiver : M unit :=
  try_except
    (c <- get ;;
     (match sock c with
      | None => modify (set_sock (Some Socket))
      | Some _ => ret tt
      end) ;;
     os_connect ;;
     emit (Log INFO "Connected to receiver at: %s:%s"))
    is_Exception
    (fun err =>
       emit (Log ERROR "unable to connect to serial server: %s:%s") ;;
       raise err) ;;
  modify (set_connected true).

Definition check_for_message : M bool := select_readable.

Definition _get_one_byte : M (option bytes) :=
  d <- recv_1 ;; ret (Some d).

Definition _prep_message_for_receiver (message : bytes) : M bytes :=
  ret (message ++ [CR]).

Definition _send_message_to_receiver (message : bytes) : M unit :=
  c <- get ;;
  match sock c with
  | None => raise AttributeError
  | Some _ => sock_sendall message
  end.

End IscpTcpConnection.

(** ** class IscpSerialConnection *)

Module IscpSerialConnection.

(** [if self.connected and self.ser.is_open: self.ser.close(); ...];
    [self.connected] is not assigned. *)
Definition _disconnect : M unit :=
  c <- get ;;
  if connected c then
    match ser c with
    | None => raise AttributeError
    | Some true =>
        modify (set_ser (Some false)) ;;
        emit (Close (rec_config c)) ;;
        emit (Log INFO "disconnected from receiver")
    | Some false => ret tt
    end
  else ret tt.

(** The [Serial] constructor opens the port it is given; [open()] opens
    a closed one.  Either is the connect attempt; an open port needs
    none. *)
Definition _connect_to_receiver : M unit :=
  try_except
    (c <- get ;;
     (match ser c with
      | None => os_connect ;; modify (set_ser (Some true))
      | Some false => os_connect ;; modify (set_ser (Some true))
      | Some true => ret tt
      end) ;;
     emit (Log INFO "Connected to receiver at: %s"))
    is_Exception
    (fun err =>
       emit (Log ERROR "unable to connect to serial port: %s") ;;
       raise err) ;;
  modify (set_connected true).

Definition check_for_message : M bool :=
  in_waiting <- in_waiting_positive ;;
  if in_waiting then ret true
  else
    poll_sleep ;;
    in_waiting <- in_waiting_positive ;;
    if in_waiting then ret true else ret false.

Definition _get_one_byte : M (option bytes) :=
  d <- ser_read_1 ;; ret (Some d).

Definition _prep_message_for_receiver (message : bytes) : M bytes :=
  ret (message ++ [CR]).

Definition _send_message_to_receiver (message : bytes) : M unit :=
  c <- get ;;
  match ser c with
  | None => raise AttributeError
  | Some false => raise SerialException
  | Some true => os_write message
  end.

End IscpSerialConnection.

(** ** class ReceiverConnection: dispatch on the class [__new__] picked *)

Definition _connect_to_receiver : M unit := fun c =>
  match mode (rec_config c) with
  | EISCP => EiscpConnection._connect_to_receiver c
  | TCP => IscpTcpConnection._connect_to_receiver c
  | Serial => IscpSerialConnection._connect_to_receiver c
  end.

Definition _disconnect : M unit := fun c =>
  match mode (rec_config c) with
  | EISCP => EiscpConnection._disconnect c
  | TCP => IscpTcpConnection._disconnect c
  | Serial => IscpSerialConnection._disconnect c
  end.

Definition check_for_message : M bool := fun c =>
  match mode (rec_config c) with
  | EISCP => EiscpConnection.check_for_message c
  | TCP => IscpTcpConnection.check_for_message c
  | Serial => IscpSerialConnection.check_for_message c
  end.

Definition _get_one_byte : M (option bytes) := fun c =>
  match mode (rec_config c) with
  | EISCP => EiscpConnection._get_one_byte c
  | TCP => IscpTcpConnection._get_one_byte c
  | Serial => IscpSerialConnection._get_one_byte c
  end.

Definition _prep_message_for_receiver (message : bytes) : M bytes := fun c =>
  match mode (rec_config c) with
  | EISCP => EiscpConnection._prep_message_for_receiver message c
  | TCP => IscpTcpConnection._prep_message_for_receiver message c
  | Serial => IscpSerialConnection._prep_message_for_receiver message c
  end.

Definition _send_message_to_receiver (message : bytes) : M unit := fun c =>
  match mode (rec_config c) with
  | EISCP => EiscpConnection._send_message_to_receiver message c
  | TCP => IscpTcpConnection._send_message_to_receiver message c
  | Serial => IscpSerialConnection._send_message_to_receiver message c
  end.

(** [send_message_to_receiver] *)
Definition send_message_to_receiver (message : bytes) : M unit :=
  c <- get ;;
  (if negb (connected c) then _connect_to_receiver else ret tt) ;;
  message <- _prep_message_for_receiver message ;;
  try_except
    (_send_message_to_receiver message)
    is_ConnectionResetError
    (fun _ =>
       emit (Log DEBUG "not connected to receiver, trying again") ;;
       sleep 1000 ;;
       _disconnect ;;
       _connect_to_receiver ;;
       _send_message_to_receiver message).

Lemma check_for_message_inbox c r c1 ev :
  check_for_message c = (r, c1, ev) ->
  (length (inbox c1) <= length (inbox c))%nat.
Proof.
  unfold check_for_message. destruct (mode (rec_config c)).
  - apply EiscpConnection.select_inbox.
  - apply EiscpConnection.select_inbox.
  - destruct c as [rc cn sk [[|]|] ce we [|[b| | |] [|[b'| | |] ib]]]; cbn;
      inversion 1; subst; cbn; lia.
Qed.

Lemma get_one_byte_inbox c b data c1 ev :
  _get_one_byte c = (Ok (Some (b :: data)), c1, ev) ->
  (length (inbox c1) < length (inbox c))%nat.
Proof.
  unfold _get_one_byte. destruct (mode (rec_config c)).
  - discriminate.
  - destruct c as [rc cn [sk|] sr ce we [|[b'| | |] ib]]; cbn;
      inversion 1; subst; cbn; lia.
  - destruct c as [rc cn sk [[|]|] ce we [|[b'| | |] ib]]; cbn;
      inversion 1; subst; cbn; lia.
Qed.

(** The [while self.check_for_message()] loop of the base class's
    [get_message]; it yields [received_data] and [terminated]. *)
Equations? get_message_loop (received_data : bytes) (found_message : bool)
  (c : conn) : outcome (bytes * bool) by wf (length (inbox c)) lt :=
get_message_loop received_data found_message c
  with inspect (check_for_message c) := {
  | exist _ (Raise e, c1, ev1) _ => (Raise e, c1, ev1)
  | exist _ (Ok false, c1, ev1) _ => (Ok (received_data, false), c1, ev1)
  | exist _ (Ok true, c1, ev1) H1 with inspect (_get_one_byte c1) := {
    | exist _ (Raise e, c2, ev2) _ => (Raise e, c2, ev1 ++ ev2)
    | exist _ (Ok None, c2, ev2) _ =>
        (Raise ConnectionResetError, c2, ev1 ++ ev2)
    | exist _ (Ok (Some []), c2, ev2) _ =>
        (Raise ConnectionResetError, c2, ev1 ++ ev2)
    | exist _ (Ok (Some (b :: data)), c2, ev2) H2
        with in_terminators (b :: data), found_message := {
      | true, true => (Ok (received_data, true), c2, ev1 ++ ev2)
      | true, false =>
          after (ev1 ++ ev2) (get_message_loop received_data false c2)
      | false, _ =>
          after (ev1 ++ ev2)
            (get_message_loop (received_data ++ b :: data)
               (if bytes_eqb (b :: data) (B "!") then true else found_message)
               c2) } } }.
Proof.
  all: apply check_for_message_inbox in H1; apply get_one_byte_inbox in H2; lia.
Qed.

(** [ReceiverConnection.get_message] *)
Definition base_get_message : M (option bytes) :=
  r <- get_message_loop [] false ;;
  let '(received_data, terminated) := r in
  emit (Log (if terminated then DEBUG else WARNING)
          "total received %s, terminated %s") ;;
  if terminated then ret (Some received_data) else ret None.

(** [get_message], as the object's class resolves it. *)
Definition get_message : M (option bytes) := fun c =>
  match mode (rec_config c) with
  | EISCP => EiscpConnection.get_message c
  | TCP => base_get_message c
  | Serial => base_get_message c
  end.

(** ** [listen_forever]: one turn of its [while True] *)

Section Listen.

(** The callback acts on objects other than the listening connection
    (for the primary: the service's secondaries), of state [S].  It is
    handed whatever [get_message] returned, [None] included. *)
Variable S : Type.
Variable message_callback :
  option (option bytes -> S -> result unit * S * list event).

(** [ready = self.check_for_message()] and what follows it inside the
    [try]. *)
Definition listen_body (c : conn) (s : S)
  : result unit * conn * S * list event :=
  match check_for_message c with
  | (Raise e, c1, ev1) => (Raise e, c1, s, ev1)
  | (Ok false, c1, ev1) => (Ok tt, c1, s, ev1)
  | (Ok true, c1, ev1) =>
      match get_message c1 with
      | (Raise e, c2, ev2) => (Raise e, c2, s, ev1 ++ ev2)
      | (Ok message, c2, ev2) =>
          match message_callback with
          | None => (Ok tt, c2, s, ev1 ++ ev2)
          | Some callback =>
              match callback message s with
              | (r, s', ev3) => (r, c2, s', ev1 ++ ev2 ++ ev3)
              end
          end
      end
  end.

(** One turn of the loop.  [Ok] is a turn that ends (by [continue] or
    by reaching the end of the body), after which the loop goes round
    again; [Raise] is an exception that leaves [listen_forever]. *)
Definition listen_step (c : conn) (s : S)
  : result unit * conn * S * list event :=
  match
    (if negb (connected c) then
       try_except (_connect_to_receiver ;; ret true) is_Exception
         (fun _ => sleep 1000 ;; ret false)
     else ret true) c
  with
  | (Raise e, c1, ev1) => (Raise e, c1, s, ev1)
  | (Ok false, c1, ev1) => (Ok tt, c1, s, ev1)
  | (Ok true, c1, ev1) =>
      match listen_body c1 s with
      | (Raise e, c2, s2, ev2) =>
          if is_ConnectionResetError e then
            match _disconnect c2 with
            | (r, c3, ev3) => (r, c3, s2, ev1 ++ ev2 ++ ev3)
            end
          else (Raise e, c2, s2, ev1 ++ ev2)
      | (Ok _, c2, s2, ev2) => (Ok tt, c2, s2, ev1 ++ ev2)
      end
  end.

End Listen.

(** ** class ReceiverSyncService *)

Module ReceiverSyncService.

(** [for listener in ...: listener.send_message_to_receiver(message)]:
    an exception leaves the loop, and the listeners not yet reached are
    as they were. *)
Fixpoint relay_loop (message : bytes) (listeners : list conn)
  : result unit * list conn * list event :=
  match listeners with
  | [] => (Ok tt, [], [])
  | listener :: rest =>
      match send_message_to_receiver message listener with
      | (Raise e, listener', ev) => (Raise e, listener' :: rest, ev)
      | (Ok _, listener', ev) =>
          match relay_loop message rest with
          | (r, rest', ev') => (r, listener' :: rest', ev ++ ev')
          end
      end
  end.

(** [relay_message_to_secondary], on the service's [listeners[1:]].
    [message] is what the primary's [get_message] returned;
    [None.startswith] is an [AttributeError]. *)
Definition relay_message_to_secondary (message : option bytes)
  (secondaries : list conn) : result unit * list conn * list event :=
  match message with
  | None => (Raise AttributeError, secondaries, [])
  | Some message =>
      if startswith message (B "!1PWR") then
        match relay_loop message secondaries with
        | (r, secondaries', ev) =>
            (r, secondaries', Log DEBUG "relaying power message" :: ev)
        end
      else (Ok tt, secondaries, [])
  end.

(** [send_pwr_question_to_primary], on [listeners[0]]. *)
Definition send_pwr_question_to_primary : M unit :=
  emit (Log DEBUG "sending !1PWRQSTN to primary") ;;
  send_message_to_receiver (B "!1PWRQSTN").

(** One turn of the primary's [listen_forever]; its callback is
    [relay_message_to_secondary]. *)
Definition primary_listen_step (primary : conn) (secondaries : list conn)
  : result unit * conn * list conn * list event :=
  listen_step (Some relay_message_to_secondary) primary secondaries.

(** One turn of a secondary's [listen_forever]; it has no callback. *)
Definition secondary_listen_step (secondary : conn)
  : result unit * conn * unit * list event :=
  listen_step None secondary tt.

End ReceiverSyncService.

(** ** [listen_forever], several turns *)

Section ListenTurns.

Variable S : Type.
Variable message_callback :
  option (option bytes -> S -> result unit * S * list event).

(** The first [n] turns of [listen_forever]'s [while True]; an exception
    that leaves a turn leaves the loop. *)
Fixpoint listen_turns (n : nat) (c : conn) (s : S)
  : result unit * conn * S * list event :=
  match n with
  | O => (Ok tt, c, s, [])
  | Datatypes.S n' =>
      match listen_step message_callback c s with
      | (Raise e, c1, s1, ev1) => (Raise e, c1, s1, ev1)
      | (Ok _, c1, s1, ev1) =>
          match listen_turns n' c1 s1 with
          | (r, c2, s2, ev2) => (r, c2, s2, ev1 ++ ev2)
          end
      end
  end.

End ListenTurns.

(** ** [ReceiverSyncService.__exit__] *)

Module Teardown.


End Teardown.

(** ** main.py: the loop of [main_loop] *)

Module Main.

(** One turn of the [while True] of [main_loop], on the service's
    primary ([listeners[0]]); [count] is the loop's counter.  The
    listener threads the function starts before the loop are not part
    of it. *)
Definition main_turn (count : Z) : M Z :=
  sleep 100 ;;
  let count := count + 1 in
  if count =? 100 then
    ReceiverSyncService.send_pwr_question_to_primary ;;
    ret 0
  else ret count.

(** The first [n] turns of the loop. *)
Fixpoint main_turns (n : nat) (count : Z) : M Z :=
  match n with
  | O => ret count
  | S n' => count <- main_turn count ;; main_turns n' count
  end.

End Main.

(** ** config.py and the choice of the connection class *)

#[local] Set Warnings "-register-all".

(** A value as [json.loads] returns it. *)
Inductive json : Type :=
| JNull
| JBool (b : bool)
| JNumber (n : Z)
| JString (s : string)
| JArray (items : list json)
| JObject (members : list (string * json)).

(** A Python [dict] with string keys, as an association list; the first
    binding of a key is the one in force. *)
Definition dict : Type := list (string * json).

(** [d.get(key)] *)
Fixpoint dict_get (key : string) (d : dict) : option json :=
  match d with
  | [] => None
  | (k, v) :: rest => if String.eqb k key then Some v else dict_get key rest
  end.

(** [key in d] *)
Definition has_key (key : string) (d : dict) : bool :=
  match dict_get key d with Some _ => true | None => false end.

(** [value == "text"] *)
Definition is_string (value : json) (text : string) : bool :=
  match value with
  | JString s => String.eqb s text
  | _ => false
  end.

Module Config.

(** What a call of [validate_receiver] ends in: it returns, or raises
    [ConfigError] with a message. *)
Inductive validation : Type :=
| Valid
| ConfigError (msg : string).

Definition validate_receiver (rec_config : dict) : validation :=
  match dict_get "mode" rec_config with
  | None => ConfigError "config missing mode"
  | Some mode =>
      if is_string mode "EISCP" then
        if negb (has_key "ip" rec_config) then
          ConfigError "ip missing for EISCP"
        else Valid
      else if is_string mode "TCP" then
        if negb (has_key "ip" rec_config) then
          ConfigError "ip missing for TCP"
        else if negb (has_key "tcp_port" rec_config) then
          ConfigError "tcp_port missing for TCP"
        else Valid
      else if is_string mode "Serial" then
        if negb (has_key "serial_port" rec_config) then
          ConfigError "serial_port missing for Serial"
        else Valid
      else ConfigError "invalid mode: %s"
  end.

End Config.

Module ReceiverConnection.

(** What [ReceiverConnection(logger, rec_config, ...)] ends in: an
    object of the class picked, [KeyError] for a missing ["mode"],
    [ValueError] for a mode that is none of the three. *)
Inductive construction : Type :=
| Object (cls : Mode)
| KeyError (key : string)
| ValueError (msg : string).

(** [__new__], called on the base class. *)
Definition __new__ (rec_config : dict) : construction :=
  match dict_get "mode" rec_config with
  | None => KeyError "mode"
  | Some mode =>
      if is_string mode "Serial" then Object Serial
      else if is_string mode "TCP" then Object TCP
      else if is_string mode "EISCP" then Object EISCP
      else ValueError "invalid value for config mode: %s"
  end.

(** The keys each class subscripts [self.rec_config] with, in its
    [_connect_to_receiver]. *)
Definition keys_read (cls : Mode) : list string :=
  match cls with
  | EISCP => ["ip"%string]
  | TCP => ["ip"%string; "tcp_port"%string]
  | Serial => ["serial_port"%string]
  end.

End ReceiverConnection.

(** * Vocabulary of the properties, and the objects they are tried on *)

(** The claim of C4 at one command. *)
Definition roundtrips (c : bytes) : Prop :=
  exists packet,
    Eiscp.build_eiscp_packet c = Some packet
    /\ Eiscp.extract_eiscp_header packet = Some (16, len c + 1)
    /\ Eiscp.extract_eiscp_message packet = Some c.

(** A command of 2^32 - 1 bytes: its payload length, 2^32, does not fit
    the [I] field. *)
Definition huge_command : bytes := repeat x00 (Z.to_nat 4294967295).

(** Everything but the log lines. *)
Definition is_io (e : event) : bool :=
  match e with Log _ _ => false | _ => true end.

Definition io_events (ev : list event) : list event := filter is_io ev.

(** The completed writes. *)
Definition is_write (e : event) : bool :=
  match e with Write _ _ => true | _ => false end.

Definition writes (ev : list event) : list event := filter is_write ev.

(** The peer has reset the object's connection. *)
Definition reset_pending (c : conn) : bool :=
  match inbox c with Reset :: _ => true | _ => false end.

(** The object holds an open handle of its transport. *)
Definition handle_open (c : conn) : bool :=
  match mode (rec_config c) with
  | Serial => match ser c with Some true => true | _ => false end
  | _ => match sock c with Some _ => true | None => false end
  end.

(** What [_prep_message_for_receiver] makes of a message, per mode. *)
Definition wire_of (m : Mode) (message : bytes) : option bytes :=
  match m with
  | EISCP => Eiscp.build_eiscp_packet message
  | _ => Some (message ++ [CR])
  end.

(** The outcome a script holds for the next attempt. *)
Definition next_outcome (script : list (option exn)) : option exn :=
  match script with
  | [] => None
  | o :: _ => o
  end.

(** The writes attempted, completed or not. *)
Definition is_write_attempt (e : event) : bool :=
  match e with Write _ _ | WriteFailed _ _ _ => true | _ => false end.

Definition write_attempts (ev : list event) : list event :=
  filter is_write_attempt ev.

Definition write_event (rc : ReceiverConfig) (wire : bytes) (o : option exn)
  : event :=
  match o with None => Write rc wire | Some e => WriteFailed rc wire e end.

Definition write_result (o : option exn) : result unit :=
  match o with None => Ok tt | Some e => Raise e end.

(** A connected delimited-TCP connection whose next write is reset;
    the write after that would succeed. *)
Definition flaky_tcp : conn :=
  {| rec_config :=
       {| mode := TCP; ip := "10.0.0.2"; tcp_port := 8102; serial_port := "" |};
     connected := true; sock := Some Socket; ser := None;
     connect_env := []; write_env := [Some ConnectionResetError; None];
     inbox := [] |}.

(** The object a send leaves behind, the events it performs and whether
    it returns. *)
Definition sent (message : bytes) (s : conn) : conn :=
  snd (fst (send_message_to_receiver message s)).

Definition send_events (message : bytes) (s : conn) : list event :=
  snd (send_message_to_receiver message s).

Definition send_result (message : bytes) (s : conn) : result unit :=
  fst (fst (send_message_to_receiver message s)).

(** [e] is the one write of [message], shaped for its transport, to
    secondary [s]. *)
Definition written (message : bytes) (s : conn) (e : event) : Prop :=
  exists wire,
    wire_of (mode (rec_config s)) message = Some wire
    /\ e = Write (rec_config s) wire.

(** Three secondaries: a healthy delimited-TCP one, a delimited-TCP one
    whose peer has reset the connection (its writes are reset), a
    healthy serial one. *)
Definition sec_a : conn :=
  {| rec_config :=
       {| mode := TCP; ip := "10.0.0.11"; tcp_port := 8102; serial_port := "" |};
     connected := true; sock := Some Socket; ser := None;
     connect_env := []; write_env := []; inbox := [] |}.

Definition sec_b : conn :=
  {| rec_config :=
       {| mode := TCP; ip := "10.0.0.12"; tcp_port := 8102; serial_port := "" |};
     connected := true; sock := Some Socket; ser := None;
     connect_env := [];
     write_env := [Some ConnectionResetError; Some ConnectionResetError];
     inbox := [] |}.

Definition sec_c : conn :=
  {| rec_config :=
       {| mode := Serial; ip := ""; tcp_port := 0; serial_port := "/dev/ttyUSB0" |};
     connected := true; sock := None; ser := Some true;
     connect_env := []; write_env := []; inbox := [] |}.

(** The claim of C1 at one message and list of secondaries: every
    secondary whose own send works is written to by the handler,
    whatever happens to the others. *)
Definition fault_isolated (message : bytes) (secondaries : list conn) : Prop :=
  forall s,
    In s secondaries ->
    send_result message s = Ok tt ->
    exists wire,
      In (Write (rec_config s) wire)
         (snd (ReceiverSyncService.relay_message_to_secondary
                 (Some message) secondaries)).

(** A connection of one of the two delimited transports, its handle
    open. *)
Definition delimited_reader (c : conn) : Prop :=
  mode (rec_config c) <> EISCP /\ handle_open c = true.

Definition MARK : byte := "!"%byte.

Definition not_terminator (b : byte) : bool := negb (is_terminator b).

(** A delimited-TCP connection with a stream of bytes pending. *)
Definition tcp_reader (stream : bytes) : conn :=
  {| rec_config :=
       {| mode := TCP; ip := "10.0.0.2"; tcp_port := 8102; serial_port := "" |};
     connected := true; sock := Some Socket; ser := None;
     connect_env := []; write_env := []; inbox := map Byte stream |}.

Definition LETTER_I : byte := "I"%byte.

(** A binary-transport connection with read events pending. *)
Definition eiscp_reader (events : list rd) : conn :=
  {| rec_config :=
       {| mode := EISCP; ip := "10.0.0.3"; tcp_port := 0; serial_port := "" |};
     connected := true; sock := Some Socket; ser := None;
     connect_env := []; write_env := []; inbox := events |}.

(** A connected serial primary with a power message pending. *)
Definition serial_primary : conn :=
  {| rec_config :=
       {| mode := Serial; ip := ""; tcp_port := 0; serial_port := "/dev/ttyS0" |};
     connected := true; sock := None; ser := Some true;
     connect_env := []; write_env := [];
     inbox := map Byte (B "!1PWR01" ++ [CR]) |}.

(** The same primary on the delimited-TCP transport. *)
Definition tcp_primary : conn :=
  {| rec_config :=
       {| mode := TCP; ip := "10.0.0.1"; tcp_port := 8102; serial_port := "" |};
     connected := true; sock := Some Socket; ser := None;
     connect_env := []; write_env := [];
     inbox := map Byte (B "!1PWR01" ++ [CR]) |}.

(** A serial connection whose port is open: its [_connect_to_receiver]
    has nothing to open. *)
Definition port_open (c : conn) : bool :=
  match mode (rec_config c), ser c with
  | Serial, Some true => true
  | _, _ => false
  end.








Definition is_sleep (e : event) : bool :=
  match e with Sleep _ => true | _ => false end.

(** A connected object with its handle open and every coming write
    succeeding. *)
Definition steady (c : conn) : Prop :=
  connected c = true /\ handle_open c = true /\ write_env c = [].

(** A delimited-TCP connection as [__init__] leaves it, with the
    outcomes of its coming connect attempts. *)
Definition fresh_tcp (attempts : list (option exn)) : conn :=
  {| rec_config :=
       {| mode := TCP; ip := "10.0.0.2"; tcp_port := 8102; serial_port := "" |};
     connected := false; sock := None; ser := None;
     connect_env := attempts; write_env := []; inbox := [] |}.

(** A connected delimited-TCP connection whose next write fails with an
    error that is not a reset. *)
Definition broken_tcp : conn :=
  {| rec_config :=
       {| mode := TCP; ip := "10.0.0.2"; tcp_port := 8102; serial_port := "" |};
     connected := true; sock := Some Socket; ser := None;
     connect_env := []; write_env := [Some OSError]; inbox := [] |}.

(** A connected delimited-TCP connection with read events pending. *)
Definition tcp_listener (events : list rd) : conn :=
  {| rec_config :=
       {| mode := TCP; ip := "10.0.0.2"; tcp_port := 8102; serial_port := "" |};
     connected := true; sock := Some Socket; ser := None;
     connect_env := []; write_env := []; inbox := events |}.

(** The eISCP packet of [!1PWR01]. *)
Definition power_on_packet : bytes :=
  B "ISCP" ++ [x00; x00; x00; x10] ++ [x00; x00; x00; x08]
    ++ [x01; x00; x00; x00] ++ B "!1PWR01" ++ [CR].

(** The events of a computation that only waits and logs. *)
Definition is_quiet (e : event) : bool :=
  match e with Log _ _ | Sleep _ => true | _ => false end.

(** What a computation that only reads may do to the object: consume a
    prefix of the pending input, change nothing else, and only wait and
    log meanwhile. *)
Definition only_reads (c c' : conn) (ev : list event) : Prop :=
  c' = set_inbox (inbox c') c
  /\ (exists consumed, inbox c = consumed ++ inbox c')
  /\ forallb is_quiet ev = true.

Definition reads_only {A} (m : M A) : Prop :=
  forall c r c' ev, m c = (r, c', ev) -> only_reads c c' ev.

(** * Properties *)

(** ** Bytes, integers and slices *)

Lemma byte_to_Z_range (b : byte) : 0 <= byte_to_Z b < 256.
Proof.
  unfold byte_to_Z. pose proof (Byte.to_N_bounded b) as H. lia.
Qed.

Lemma byte_to_of_Z (z : Z) : byte_to_Z (byte_of_Z z) = z mod 256.
Proof.
  unfold byte_to_Z, byte_of_Z.
  assert (Hm : Z.land z 255 = z mod 256) by (apply (Z.land_ones z 8); lia).
  rewrite Hm.
  pose proof (Z.mod_pos_bound z 256 ltac:(lia)) as Hb.
  destruct (Byte.of_N (Z.to_N (z mod 256))) as [b|] eqn:E.
  - apply Byte.to_of_N in E. rewrite E. lia.
  - apply Byte.of_N_None_iff in E. lia.
Qed.

Lemma int_from_bytes_big_acc (data : bytes) (acc : Z) :
  fold_left (fun a b => a * 256 + byte_to_Z b) data acc
  = acc * 256 ^ len data + int_from_bytes_big data.
Proof.
  unfold int_from_bytes_big, len. revert acc.
  induction data as [|b data IH]; intros acc.
  - simpl. lia.
  - cbn [fold_left length]. rewrite IH, (IH (0 * 256 + byte_to_Z b)).
    rewrite Nat2Z.inj_succ, Z.pow_succ_r by lia. ring.
Qed.

Lemma int_from_bytes_big_cons (b : byte) (data : bytes) :
  int_from_bytes_big (b :: data)
  = byte_to_Z b * 256 ^ len data + int_from_bytes_big data.
Proof.
  unfold int_from_bytes_big at 1. cbn [fold_left].
  rewrite int_from_bytes_big_acc. ring.
Qed.

Lemma int_from_bytes_big_range (data : bytes) :
  0 <= int_from_bytes_big data < 256 ^ len data.
Proof.
  induction data as [|b data IH].
  - cbn. lia.
  - rewrite int_from_bytes_big_cons.
    unfold len in *. cbn [length]. rewrite Nat2Z.inj_succ, Z.pow_succ_r by lia.
    pose proof (byte_to_Z_range b). nia.
Qed.

Lemma slice_length (data : bytes) (start stop : Z) :
  (length (slice data start stop) <= length data)%nat.
Proof.
  unfold slice. rewrite length_firstn, length_skipn. lia.
Qed.

(** Inside the data a slice is the plain sub-list. *)
Lemma slice_inside (data : bytes) (start stop : Z) :
  0 <= start <= stop -> stop <= len data ->
  slice data start stop
  = firstn (Z.to_nat (stop - start)) (skipn (Z.to_nat start) data).
Proof.
  intros H1 H2. unfold slice, slice_bound.
  destruct (start <? 0) eqn:E1; destruct (stop <? 0) eqn:E2; try lia.
  rewrite !Z.min_l by lia. reflexivity.
Qed.

(** Past the end a slice is cut at the end. *)
Lemma slice_truncated (data : bytes) (start stop : Z) :
  0 <= start -> len data <= stop ->
  slice data start stop = skipn (Z.to_nat start) data.
Proof.
  intros H1 H2. unfold slice, slice_bound.
  destruct (start <? 0) eqn:E1; destruct (stop <? 0) eqn:E2;
    unfold len in *; try lia.
  rewrite (Z.min_r stop) by lia.
  destruct (Z.le_gt_cases start (Z.of_nat (length data))) as [Hle|Hgt].
  - rewrite Z.min_l by lia. apply firstn_all2. rewrite length_skipn. lia.
  - rewrite Z.min_r by lia.
    rewrite (skipn_all2 data (n := Z.to_nat start)) by lia.
    rewrite skipn_all2 by lia. now rewrite firstn_nil.
Qed.

Lemma startswith_app (prefix rest : bytes) :
  startswith (prefix ++ rest) prefix = true.
Proof.
  induction prefix as [|p prefix IH]; [reflexivity|].
  cbn. rewrite IH, andb_true_r. now apply Byte.byte_dec_lb.
Qed.

Lemma startswith_inv (data prefix : bytes) :
  startswith data prefix = true -> exists rest, data = prefix ++ rest.
Proof.
  revert data. induction prefix as [|p prefix IH]; intros data H.
  - now exists data.
  - destruct data as [|d data]; [discriminate|].
    cbn in H. apply andb_prop in H as [Hd H].
    apply Byte.byte_dec_bl in Hd. subst d.
    destruct (IH _ H) as [rest ->]. now exists rest.
Qed.

(** ** The framer *)

Example build_probe :
  Eiscp.build_eiscp_packet (B "!1PWRQSTN")
  = Some (B "ISCP" ++ [x00; x00; x00; x10] ++ [x00; x00; x00; x0a]
            ++ [x01; x00; x00; x00] ++ B "!1PWRQSTN" ++ [CR]).
Proof. reflexivity. Qed.

Example header_of_probe :
  option_map Eiscp.extract_eiscp_header (Eiscp.build_eiscp_packet (B "!1PWRQSTN"))
  = Some (Some (16, 10)).
Proof. reflexivity. Qed.

Example message_of_probe :
  option_map Eiscp.extract_eiscp_message (Eiscp.build_eiscp_packet (B "!1PWRQSTN"))
  = Some (Some (B "!1PWRQSTN")).
Proof. reflexivity. Qed.

Example header_of_magic_only :
  Eiscp.extract_eiscp_header (B "ISCP") = Some (0, 0).
Proof. reflexivity. Qed.

Example message_of_magic_only :
  Eiscp.extract_eiscp_message (B "ISCP") = Some (B "ISC").
Proof. reflexivity. Qed.

Lemma pack_I_roundtrip (n : Z) (packed : bytes) :
  Eiscp.pack_I n = Some packed ->
  int_from_bytes_big packed = n /\ length packed = 4%nat.
Proof.
  unfold Eiscp.pack_I.
  destruct ((0 <=? n) && (n <=? 4294967295)) eqn:E; [|discriminate].
  apply andb_prop in E as [H0 H1]. apply Z.leb_le in H0, H1.
  intros [= <-]. split; [|reflexivity].
  rewrite !int_from_bytes_big_cons, !byte_to_of_Z, !Z.shiftr_div_pow2 by lia.
  change (int_from_bytes_big []) with 0.
  unfold len. cbn [length]. rewrite !Nat2Z.inj_succ. cbn [Z.of_nat].
  change (2 ^ 24) with 16777216. change (2 ^ 16) with 65536.
  change (2 ^ 8) with 256.
  change (256 ^ Z.succ (Z.succ (Z.succ 0))) with 16777216.
  change (256 ^ Z.succ (Z.succ 0)) with 65536.
  change (256 ^ Z.succ 0) with 256. change (256 ^ 0) with 1.
  Z.div_mod_to_equations. lia.
Qed.

Lemma pack_I_fits (n : Z) :
  0 <= n <= 4294967295 -> exists packed, Eiscp.pack_I n = Some packed.
Proof.
  intros H. unfold Eiscp.pack_I.
  replace ((0 <=? n) && (n <=? 4294967295)) with true; [eauto|].
  symmetry. apply andb_true_intro. split; apply Z.leb_le; lia.
Qed.

Lemma pack_I_overflow (n : Z) : 4294967295 < n -> Eiscp.pack_I n = None.
Proof.
  intros H. unfold Eiscp.pack_I.
  replace (n <=? 4294967295) with false; [now rewrite andb_false_r|].
  symmetry. apply Z.leb_gt. lia.
Qed.

Lemma slice_nonneg (data : bytes) (start stop : Z) :
  0 <= start <= stop ->
  slice data start stop
  = firstn (Z.to_nat (stop - start)) (skipn (Z.to_nat start) data).
Proof.
  intros H.
  destruct (Z.le_gt_cases stop (len data)) as [Hin|Hout].
  - now apply slice_inside.
  - rewrite slice_truncated by lia. symmetry. apply firstn_all2.
    rewrite length_skipn. unfold len in Hout. lia.
Qed.

Lemma header_fields (rest : bytes) :
  Eiscp.extract_eiscp_header (B "ISCP" ++ rest)
  = Some (int_from_bytes_big (firstn 4 rest),
          int_from_bytes_big (firstn 4 (skipn 4 rest))).
Proof.
  unfold Eiscp.extract_eiscp_header.
  rewrite startswith_app. cbn [negb].
  rewrite !slice_nonneg by lia. reflexivity.
Qed.

Lemma field_range (data : bytes) :
  0 <= int_from_bytes_big (firstn 4 data) <= 4294967295.
Proof.
  pose proof (int_from_bytes_big_range (firstn 4 data)) as H.
  assert (Hl : 0 <= len (firstn 4 data) <= 4)
    by (unfold len; rewrite length_firstn; lia).
  assert (256 ^ len (firstn 4 data) <= 256 ^ 4)
    by (apply Z.pow_le_mono_r; lia).
  change (256 ^ 4) with 4294967296 in *. lia.
Qed.

Lemma huge_command_len : len huge_command = 4294967295.
Proof.
  unfold len, huge_command. rewrite repeat_length. apply Z2Nat.id. lia.
Qed.

Lemma build_overflow (c : bytes) :
  4294967295 <= len c -> Eiscp.build_eiscp_packet c = None.
Proof.
  intros H. unfold Eiscp.build_eiscp_packet.
  rewrite (pack_I_overflow (n := len c + 1)) by lia.
  now destruct (Eiscp.pack_I 16).
Qed.

(** C4, counterexample: the round trip fails on a non-empty command
    whose length does not fit the 32-bit payload-length field, since
    [build_eiscp_packet] raises [struct.error] on it. *)
Lemma roundtrip_counterexample :
  huge_command <> [] /\ ~ roundtrips huge_command.
Proof.
  split.
  - intros H. pose proof huge_command_len as L. rewrite H in L.
    discriminate L.
  - intros (packet & Hb & _).
    rewrite build_overflow in Hb by (rewrite huge_command_len; lia).
    discriminate Hb.
Qed.

(** C4, amended: for every non-empty command [c] whose payload length
    [len(c) + 1] fits the 32-bit field, [extract_eiscp_header] of the
    built packet is [(16, len(c) + 1)] and [extract_eiscp_message] of
    it is [c]. *)
Theorem framer_roundtrip (c : bytes) :
  c <> [] -> len c + 1 <= 4294967295 -> roundtrips c.
Proof.
  intros _ Hfit. unfold roundtrips, Eiscp.build_eiscp_packet.
  assert (H0 : 0 <= len c) by (unfold len; lia).
  destruct (pack_I_fits (n := len c + 1)) as [ds Hds]; [lia|].
  rewrite Hds. cbn [Eiscp.pack_I Z.leb Z.compare andb].
  destruct (pack_I_roundtrip _ Hds) as [Hd Hdl].
  destruct ds as [|d1 [|d2 [|d3 [|d4 [|]]]]]; try discriminate Hdl.
  eexists. split; [reflexivity|].
  assert (Hh : Eiscp.extract_eiscp_header
                 (B "ISCP" ++ [byte_of_Z (Z.shiftr 16 24); byte_of_Z (Z.shiftr 16 16);
                                byte_of_Z (Z.shiftr 16 8); byte_of_Z 16]
                    ++ [d1; d2; d3; d4] ++ [x01] ++ [x00; x00; x00] ++ c ++ [CR])
               = Some (16, len c + 1)).
  { rewrite header_fields. cbn [firstn skipn app]. now rewrite Hd. }
  split; [exact Hh|].
  unfold Eiscp.extract_eiscp_message. rewrite Hh.
  rewrite slice_nonneg by lia.
  replace (16 + (len c + 1) - 1 - 16) with (len c) by lia.
  change (Z.to_nat 16) with 16%nat.
  change (B "ISCP") with ["I"; "S"; "C"; "P"]%byte. cbn [app skipn].
  unfold len. rewrite Nat2Z.id, firstn_app, firstn_all, Nat.sub_diag.
  cbn [firstn]. now rewrite app_nil_r.
Qed.

Lemma framer_roundtrip_witness : roundtrips (B "!1PWR01").
Proof.
  apply framer_roundtrip.
  - discriminate.
  - vm_compute. discriminate.
Defined.

(** C9: on every byte sequence that does not start with [ISCP],
    [extract_eiscp_header] returns [None]. *)
Theorem header_rejects_wrong_magic (b : bytes) :
  (forall rest, b <> B "ISCP" ++ rest) ->
  Eiscp.extract_eiscp_header b = None.
Proof.
  intros H. unfold Eiscp.extract_eiscp_header.
  destruct (startswith b (B "ISCP")) eqn:E; [|reflexivity].
  apply startswith_inv in E as [rest ->]. now destruct (H rest).
Qed.

Lemma header_rejects_wrong_magic_witness :
  Eiscp.extract_eiscp_header (B "ISCQ" ++ [x00; x00; x00; x10]) = None.
Proof.
  apply header_rejects_wrong_magic.
  intros rest H. cbn in H. discriminate H.
Defined.

(** C10: on every byte sequence starting with [ISCP] both extraction
    functions return a value.  [extract_eiscp_header] returns two
    integers of the 32-bit range, read big-endian from as many of the
    bytes at offsets 4..7 and 8..11 as exist ([(0, 0)] when none do);
    [extract_eiscp_message] returns a byte string no longer than the
    input, which is the input from offset [header_size] to its end when
    [header_size + data_size - 1] is not inside the input (so empty
    when [header_size] is not either). *)
Theorem extraction_total (rest : bytes) :
  let data := B "ISCP" ++ rest in
  exists header_size data_size message,
    Eiscp.extract_eiscp_header data = Some (header_size, data_size)
    /\ header_size = int_from_bytes_big (firstn 4 rest)
    /\ data_size = int_from_bytes_big (firstn 4 (skipn 4 rest))
    /\ 0 <= header_size <= 4294967295
    /\ 0 <= data_size <= 4294967295
    /\ (rest = [] -> header_size = 0 /\ data_size = 0)
    /\ Eiscp.extract_eiscp_message data = Some message
    /\ (length message <= length data)%nat
    /\ (len data <= header_size + data_size - 1 ->
        message = skipn (Z.to_nat header_size) data)
    /\ (len data <= header_size + data_size - 1 ->
        len data <= header_size -> message = []).
Proof.
  intros data. subst data.
  exists (int_from_bytes_big (firstn 4 rest)),
    (int_from_bytes_big (firstn 4 (skipn 4 rest))).
  eexists. unfold Eiscp.extract_eiscp_message. rewrite header_fields.
  pose proof (field_range rest) as Hh.
  pose proof (field_range (skipn 4 rest)) as Hd.
  repeat split; try reflexivity; try lia.
  - subst rest. reflexivity.
  - subst rest. reflexivity.
  - apply slice_length.
  - intros H. apply slice_truncated; lia.
  - intros H1 H2. rewrite slice_truncated by lia.
    apply skipn_all2. unfold len in H2. lia.
Qed.

Lemma extraction_total_witness :
  exists header_size data_size message,
    Eiscp.extract_eiscp_header (B "ISCP") = Some (header_size, data_size)
    /\ header_size = 0 /\ data_size = 0
    /\ Eiscp.extract_eiscp_message (B "ISCP") = Some message
    /\ (length message <= 4)%nat.
Proof.
  destruct (extraction_total []) as (h & d & m & Hh & _ & _ & _ & _ & H0 & Hm & Hl & _).
  destruct (H0 eq_refl) as [-> ->].
  exists 0, 0, m. repeat split; assumption.
Defined.

(** ** Sending: [send_message_to_receiver] *)

Arguments Eiscp.build_eiscp_packet : simpl never.

(** Runs a method on an object whose relevant fields are constructors. *)
Ltac run :=
  cbv beta iota zeta delta
    [bind try_except get ret raise emit modify sleep
     _connect_to_receiver _disconnect check_for_message _get_one_byte
     _prep_message_for_receiver _send_message_to_receiver
     EiscpConnection._connect_to_receiver EiscpConnection._disconnect
     EiscpConnection.check_for_message EiscpConnection._get_one_byte
     EiscpConnection._prep_message_for_receiver
     EiscpConnection._send_message_to_receiver
     IscpTcpConnection._connect_to_receiver IscpTcpConnection._disconnect
     IscpTcpConnection.check_for_message IscpTcpConnection._get_one_byte
     IscpTcpConnection._prep_message_for_receiver
     IscpTcpConnection._send_message_to_receiver
     IscpSerialConnection._connect_to_receiver IscpSerialConnection._disconnect
     IscpSerialConnection.check_for_message IscpSerialConnection._get_one_byte
     IscpSerialConnection._prep_message_for_receiver
     IscpSerialConnection._send_message_to_receiver
     os_connect os_write sock_sendall sock_shutdown mark_reset
     select_readable recv_1 in_waiting_positive
     ser_read_1 poll_sleep is_ConnectionResetError is_Exception negb
     set_connected set_sock set_ser set_connect_env set_write_env set_inbox
     rec_config connected sock ser connect_env write_env inbox mode].

Ltac send_cases Hw :=
  run; rewrite ?Hw; run;
  let H := fresh in
  intros H; inversion H; subst; cbn; auto.

Lemma connect_ok_connected c c0 ev0 :
  _connect_to_receiver c = (Ok tt, c0, ev0) ->
  connected c0 = true /\ handle_open c0 = true
  /\ rec_config c0 = rec_config c /\ write_env c0 = write_env c
  /\ writes ev0 = [].
Proof.
  destruct c as [[m i p sp] cn sk sr ce we ib].
  destruct m; [destruct sk | destruct sk | destruct sr as [[|]|]];
    destruct ce as [|[e|] ce]; run; inversion 1; subst; cbn; auto.
Qed.

(** A send that returns has written the shaped message once, and
    nothing else. *)
Lemma send_ok_writes_once message c c' ev :
  send_message_to_receiver message c = (Ok tt, c', ev) ->
  exists wire,
    wire_of (mode (rec_config c)) message = Some wire
    /\ writes ev = [Write (rec_config c) wire]
    /\ rec_config c' = rec_config c.
Proof.
  destruct c as [[m i p sp] cn sk sr ce we ib].
  unfold send_message_to_receiver.
  destruct m; cbn [wire_of mode rec_config].
  - destruct (Eiscp.build_eiscp_packet message) as [wire|] eqn:Hw.
    + intros H; exists wire; revert c' ev H.
      destruct cn, sk, ce as [|[e|] [|[e'|] ce]], we as [|[[]|] [|[e2|] we]];
        intros c' ev; send_cases Hw.
    + destruct cn, sk, ce as [|[e|] ce]; send_cases Hw.
  - intros H; exists (message ++ [CR]); revert c' ev H.
    destruct cn, sk, ce as [|[e|] [|[e'|] ce]], we as [|[[]|] [|[e2|] we]];
      intros c' ev; send_cases I.
  - intros H; exists (message ++ [CR]); revert c' ev H.
    destruct cn, sr as [[|]|], ce as [|[e|] [|[e'|] ce]],
      we as [|[[]|] [|[e2|] we]];
      intros c' ev; send_cases I.
Qed.

(** C7, the code at the failing input: a write on a socket connection
    fails with a reset error.  [send_message_to_receiver] logs, sleeps
    one second and calls [_disconnect], whose [shutdown] on the reset
    socket raises [OSError]: that exception is the outcome of the call.
    The socket is not closed, no reconnect is attempted and the write
    is not attempted a second time; the object still says it is
    connected.  [c0] is the object as the first write finds it, after
    the connect of a not yet connected one. *)
Theorem send_reset_not_retried (message wire : bytes) (c c0 : conn)
  (ev0 : list event) (rest : list (option exn)) :
  (if negb (connected c) then _connect_to_receiver else ret tt) c
    = (Ok tt, c0, ev0) ->
  mode (rec_config c0) <> Serial ->
  sock c0 <> None ->
  wire_of (mode (rec_config c0)) message = Some wire ->
  write_env c0 = Some ConnectionResetError :: rest ->
  send_message_to_receiver message c
  = (Raise OSError, mark_reset (set_write_env rest c0),
     ev0 ++ [ WriteFailed (rec_config c0) wire ConnectionResetError;
              Log DEBUG "not connected to receiver, trying again";
              Sleep 1000 ])
  /\ connected (mark_reset (set_write_env rest c0)) = true
  /\ sock (mark_reset (set_write_env rest c0)) = sock c0.
Proof.
  intros H0 Hm Hs Hw Hwe.
  assert (Hcn : connected c0 = true).
  { destruct (connected c) eqn:E; cbn [negb] in H0.
    - injection H0 as <- _. exact E.
    - now apply connect_ok_connected in H0. }
  unfold send_message_to_receiver.
  unfold bind at 1. cbn [get]. unfold bind at 1. rewrite H0. clear H0.
  destruct c0 as [[m i p sp] cn [sk|] sr ce we ib]; [|cbn in Hs; congruence].
  cbn [connected write_env] in *. subst cn we.
  destruct m; cbn [mode rec_config wire_of] in *; [| |congruence];
    try injection Hw as <-;
    run; rewrite ?Hw; run; repeat split.
Qed.

Lemma send_reset_not_retried_witness :
  send_message_to_receiver (B "!1PWR01") flaky_tcp
  = (Raise OSError, mark_reset (set_write_env [None] flaky_tcp),
     [] ++ [ WriteFailed (rec_config flaky_tcp) (B "!1PWR01" ++ [CR])
               ConnectionResetError;
             Log DEBUG "not connected to receiver, trying again";
             Sleep 1000 ])
  /\ connected (mark_reset (set_write_env [None] flaky_tcp)) = true
  /\ sock (mark_reset (set_write_env [None] flaky_tcp)) = sock flaky_tcp.
Proof.
  apply (@send_reset_not_retried (B "!1PWR01") (B "!1PWR01" ++ [CR])
           flaky_tcp flaky_tcp [] [None]).
  - reflexivity.
  - discriminate.
  - discriminate.
  - reflexivity.
  - reflexivity.
Defined.

(** ** Relaying: [relay_message_to_secondary] *)

Lemma send_split message s :
  send_message_to_receiver message s
  = (send_result message s, sent message s, send_events message s).
Proof.
  unfold send_result, sent, send_events.
  now destruct (send_message_to_receiver message s) as [[r c] ev].
Qed.

Lemma startswith_firstn (data prefix : bytes) :
  startswith data prefix = true <-> firstn (length prefix) data = prefix.
Proof.
  split.
  - intros H. apply startswith_inv in H as [rest ->].
    rewrite firstn_app, Nat.sub_diag, firstn_all. cbn. apply app_nil_r.
  - intros H. rewrite <- (firstn_skipn (length prefix) data), H.
    apply startswith_app.
Qed.

Lemma power_message_dec (message : bytes) :
  (startswith message (B "!1PWR") = true /\ firstn 5 message = B "!1PWR")
  \/ (startswith message (B "!1PWR") = false /\ firstn 5 message <> B "!1PWR").
Proof.
  destruct (startswith message (B "!1PWR")) eqn:E.
  - left. split; [reflexivity|]. now apply (startswith_firstn message (B "!1PWR")).
  - right. split; [reflexivity|]. intros H.
    apply (startswith_firstn message (B "!1PWR")) in H. congruence.
Qed.

Lemma send_raise_no_write message c e c' ev :
  send_message_to_receiver message c = (Raise e, c', ev) -> writes ev = [].
Proof.
  destruct c as [[m i p sp] cn sk sr ce we ib].
  unfold send_message_to_receiver. revert c' ev.
  destruct m.
  - destruct (Eiscp.build_eiscp_packet message) as [wire|] eqn:Hw;
      destruct cn, sk, ce as [|[e1|] [|[e'|] ce]], we as [|[[]|] [|[e2|] we]];
      intros c' ev; send_cases Hw.
  - destruct cn, sk, ce as [|[e1|] [|[e'|] ce]], we as [|[[]|] [|[e2|] we]];
      intros c' ev; send_cases I.
  - destruct cn, sr as [[|]|], ce as [|[e1|] [|[e'|] ce]],
      we as [|[[]|] [|[e2|] we]];
      intros c' ev; send_cases I.
Qed.

Lemma writes_app (ev1 ev2 : list event) :
  writes (ev1 ++ ev2) = writes ev1 ++ writes ev2.
Proof. apply filter_app. Qed.

(** The loop over secondaries that all take the message. *)
Lemma relay_loop_all_ok message secondaries :
  Forall (fun s => send_result message s = Ok tt) secondaries ->
  ReceiverSyncService.relay_loop message secondaries
  = (Ok tt, map (sent message) secondaries,
     flat_map (send_events message) secondaries).
Proof.
  induction 1 as [|s rest Hs _ IH]; [reflexivity|].
  cbn [ReceiverSyncService.relay_loop map flat_map].
  rewrite send_split, Hs, IH. reflexivity.
Qed.

(** The loop stops at the first secondary whose send raises. *)
Lemma relay_loop_stops message before failing after e :
  Forall (fun s => send_result message s = Ok tt) before ->
  send_result message failing = Raise e ->
  ReceiverSyncService.relay_loop message (before ++ failing :: after)
  = (Raise e, map (sent message) before ++ sent message failing :: after,
     flat_map (send_events message) before ++ send_events message failing).
Proof.
  intros Hb Hf. induction Hb as [|s rest Hs _ IH].
  - cbn [app ReceiverSyncService.relay_loop map flat_map].
    now rewrite send_split, Hf.
  - cbn [app ReceiverSyncService.relay_loop map flat_map].
    rewrite send_split, Hs, IH. now rewrite app_assoc.
Qed.

Lemma writes_of_sends message secondaries :
  Forall (fun s => send_result message s = Ok tt) secondaries ->
  Forall2 (written message) secondaries
    (writes (flat_map (send_events message) secondaries)).
Proof.
  induction 1 as [|s rest Hs _ IH]; [constructor|].
  cbn [flat_map]. rewrite writes_app.
  pose proof (send_split message s) as Hsp. rewrite Hs in Hsp.
  apply send_ok_writes_once in Hsp as (wire & Hw & Hwr & _).
  rewrite Hwr. cbn [app]. constructor; [|exact IH].
  exists wire. auto.
Qed.

(** C1, counterexample: with three secondaries of which the second
    has been reset by its peer, the handler raises out of its loop (the
    [shutdown] of the reset socket fails inside the send) and the
    third, healthy secondary is never written to. *)
Lemma fault_isolation_counterexample :
  ReceiverSyncService.relay_message_to_secondary (Some (B "!1PWR01"))
    [sec_a; sec_b; sec_c]
  = (Raise OSError,
     [sec_a; mark_reset (set_write_env [Some ConnectionResetError] sec_b);
      sec_c],
     [ Log DEBUG "relaying power message";
       Write (rec_config sec_a) (B "!1PWR01" ++ [CR]);
       WriteFailed (rec_config sec_b) (B "!1PWR01" ++ [CR]) ConnectionResetError;
       Log DEBUG "not connected to receiver, trying again";
       Sleep 1000 ])
  /\ ~ fault_isolated (B "!1PWR01") [sec_a; sec_b; sec_c].
Proof.
  split; [reflexivity|].
  intros H.
  destruct (H sec_c) as [wire Hin].
  - right. right. left. reflexivity.
  - reflexivity.
  - vm_compute in Hin.
    repeat (destruct Hin as [Hin|Hin]; [discriminate Hin|]).
    exact Hin.
Qed.

(** C1, amended: a failure of [send_message_to_receiver] on one
    secondary propagates out of the handler and ends its loop: the
    secondaries before the failing one (in list order) have each been
    written the message once, the failing one and those after it have
    not been written to, and those after it are left untouched. *)
Theorem relay_aborts_at_failure (message : bytes) (before after : list conn)
  (failing : conn) (e : exn) :
  firstn 5 message = B "!1PWR" ->
  Forall (fun s => send_result message s = Ok tt) before ->
  send_result message failing = Raise e ->
  exists ev,
    ReceiverSyncService.relay_message_to_secondary (Some message)
      (before ++ failing :: after)
    = (Raise e,
       map (sent message) before ++ sent message failing :: after, ev)
    /\ Forall2 (written message) before (writes ev).
Proof.
  intros Hp Hb Hf.
  unfold ReceiverSyncService.relay_message_to_secondary.
  destruct (power_message_dec message) as [[-> _]|[_ Hn]]; [|contradiction].
  rewrite (@relay_loop_stops message before failing after e Hb Hf).
  eexists. split; [reflexivity|].
  cbn [writes filter is_write]. fold (writes
    (flat_map (send_events message) before ++ send_events message failing)).
  rewrite writes_app.
  pose proof (send_split message failing) as Hsp. rewrite Hf in Hsp.
  rewrite (@send_raise_no_write _ _ _ _ _ Hsp), app_nil_r.
  now apply writes_of_sends.
Qed.

Lemma relay_aborts_at_failure_witness :
  exists ev,
    ReceiverSyncService.relay_message_to_secondary (Some (B "!1PWR01"))
      ([sec_a] ++ sec_b :: [sec_c])
    = (Raise OSError,
       map (sent (B "!1PWR01")) [sec_a] ++ sent (B "!1PWR01") sec_b :: [sec_c],
       ev)
    /\ Forall2 (written (B "!1PWR01")) [sec_a] (writes ev).
Proof.
  apply relay_aborts_at_failure.
  - reflexivity.
  - repeat constructor.
  - reflexivity.
Defined.

(** Either every send of the loop returns, or there is a first one that
    raises. *)
Lemma relay_loop_cases message secondaries :
  Forall (fun s => send_result message s = Ok tt) secondaries
  \/ exists before failing after e,
       secondaries = before ++ failing :: after
       /\ Forall (fun s => send_result message s = Ok tt) before
       /\ send_result message failing = Raise e.
Proof.
  induction secondaries as [|s rest IH]; [left; constructor|].
  destruct (send_result message s) as [[]|e] eqn:Hs.
  - destruct IH as [Hall|(before & failing & after & e & -> & Hb & Hf)].
    + left. now constructor.
    + right. exists (s :: before), failing, after, e.
      repeat split; [now constructor|exact Hf].
  - right. exists [], s, rest, e. repeat split; [constructor|exact Hs].
Qed.

(** C6, counterexample: a power message is not sent to every secondary
    when the send to one of them raises; the third secondary gets
    nothing. *)
Lemma forwarding_counterexample :
  firstn 5 (B "!1PWR01") = B "!1PWR"
  /\ writes (snd (ReceiverSyncService.relay_message_to_secondary
                    (Some (B "!1PWR01")) [sec_a; sec_b; sec_c]))
     = [Write (rec_config sec_a) (B "!1PWR01" ++ [CR])]
  /\ ~ Forall2 (written (B "!1PWR01")) [sec_a; sec_b; sec_c]
        (writes (snd (ReceiverSyncService.relay_message_to_secondary
                        (Some (B "!1PWR01")) [sec_a; sec_b; sec_c]))).
Proof.
  split; [reflexivity|]. split; [reflexivity|].
  change (writes (snd (ReceiverSyncService.relay_message_to_secondary
                         (Some (B "!1PWR01")) [sec_a; sec_b; sec_c])))
    with [Write (rec_config sec_a) (B "!1PWR01" ++ [CR])].
  intros H. inversion H as [|? ? ? ? _ H']. inversion H'.
Qed.

(** C6, amended: the handler forwards exactly the power messages.  A
    message whose first 5 bytes are not [!1PWR] is sent to no secondary:
    the handler returns with nothing done.  On a message whose first 5
    bytes are [!1PWR] the handler writes that same message, shaped for
    the transport, once to each secondary in list order and writes
    nothing else: to every secondary when it returns, and to those
    before the first secondary whose send raises when it does not. *)
Theorem relay_forwards_power_messages (message : bytes)
  (secondaries secondaries' : list conn) (r : result unit) (ev : list event) :
  ReceiverSyncService.relay_message_to_secondary (Some message) secondaries
    = (r, secondaries', ev) ->
  (firstn 5 message <> B "!1PWR" ->
   r = Ok tt /\ secondaries' = secondaries /\ ev = [])
  /\ (firstn 5 message = B "!1PWR" ->
      exists reached,
        Forall2 (written message) reached (writes ev)
        /\ match r with
           | Ok _ => reached = secondaries
           | Raise e =>
               exists failing after,
                 secondaries = reached ++ failing :: after
                 /\ send_result message failing = Raise e
           end).
Proof.
  unfold ReceiverSyncService.relay_message_to_secondary. intros H.
  destruct (power_message_dec message) as [[Hs Hp]|[Hs Hn]]; rewrite Hs in H.
  - split; [intros Hn; contradiction|]. intros _.
    destruct (relay_loop_cases message secondaries)
      as [Hall|(before & failing & after & e & -> & Hb & Hf)].
    + rewrite (@relay_loop_all_ok _ _ Hall) in H. injection H as <- <- <-.
      exists secondaries. split; [|reflexivity].
      cbn [writes filter is_write]. now apply writes_of_sends.
    + rewrite (@relay_loop_stops message before failing after e Hb Hf) in H.
      injection H as <- <- <-.
      exists before. split; [|now exists failing, after].
      cbn [writes filter is_write]. fold (writes
        (flat_map (send_events message) before ++ send_events message failing)).
      rewrite writes_app.
      pose proof (send_split message failing) as Hsp. rewrite Hf in Hsp.
      rewrite (@send_raise_no_write _ _ _ _ _ Hsp), app_nil_r.
      now apply writes_of_sends.
  - split; [|intros Hp; contradiction]. intros _.
    injection H as <- <- <-. auto.
Qed.

Lemma relay_forwards_power_messages_witness :
  (exists reached,
      Forall2 (written (B "!1PWR01")) reached
        [ Write (rec_config sec_a) (B "!1PWR01" ++ [CR]);
          Write (rec_config sec_c) (B "!1PWR01" ++ [CR]) ]
      /\ reached = [sec_a; sec_c])
  /\ (Ok tt = Ok tt /\ [sec_a; sec_c] = [sec_a; sec_c]
      /\ @nil event = []).
Proof.
  split.
  - apply (@relay_forwards_power_messages (B "!1PWR01") [sec_a; sec_c]
             [sec_a; sec_c] (Ok tt)
             [ Log DEBUG "relaying power message";
               Write (rec_config sec_a) (B "!1PWR01" ++ [CR]);
               Write (rec_config sec_c) (B "!1PWR01" ++ [CR]) ]);
      reflexivity.
  - apply (@relay_forwards_power_messages (B "!1MVL20") [sec_a; sec_c]
             [sec_a; sec_c] (Ok tt) []).
    + reflexivity.
    + vm_compute. discriminate.
Defined.

(** ** Assembling a delimited message: the base class's [get_message] *)

Lemma get_message_loop_body received_data found_message c :
  get_message_loop received_data found_message c
  = match check_for_message c with
    | (Raise e, c1, ev1) => (Raise e, c1, ev1)
    | (Ok false, c1, ev1) => (Ok (received_data, false), c1, ev1)
    | (Ok true, c1, ev1) =>
        match _get_one_byte c1 with
        | (Raise e, c2, ev2) => (Raise e, c2, ev1 ++ ev2)
        | (Ok None, c2, ev2) => (Raise ConnectionResetError, c2, ev1 ++ ev2)
        | (Ok (Some []), c2, ev2) =>
            (Raise ConnectionResetError, c2, ev1 ++ ev2)
        | (Ok (Some (b :: data)), c2, ev2) =>
            if in_terminators (b :: data) then
              if found_message then
                (Ok (received_data, true), c2, ev1 ++ ev2)
              else after (ev1 ++ ev2) (get_message_loop received_data false c2)
            else
              after (ev1 ++ ev2)
                (get_message_loop (received_data ++ b :: data)
                   (if bytes_eqb (b :: data) (B "!") then true
                    else found_message) c2)
        end
    end.
Proof.
  funelim (get_message_loop received_data found_message c).
  all: repeat match goal with
       | H : check_for_message ?c = _ |- context [check_for_message ?c] =>
           rewrite H
       | H : _get_one_byte ?c = _ |- context [_get_one_byte ?c] => rewrite H
       | H : in_terminators ?d = _ |- context [in_terminators ?d] =>
           rewrite H
       end; reflexivity.
Qed.

Lemma after_nil {A} (o : outcome A) : after [] o = o.
Proof. now destruct o as [[r c] ev]. Qed.

Lemma in_terminators_one (b : byte) : in_terminators [b] = is_terminator b.
Proof.
  unfold in_terminators, is_terminator. cbn. now rewrite !andb_true_r.
Qed.

(** One turn of the loop on a pending byte. *)
Lemma loop_byte received_data found_message c b k :
  delimited_reader c ->
  inbox c = Byte b :: k ->
  get_message_loop received_data found_message c
  = if is_terminator b then
      if found_message then (Ok (received_data, true), set_inbox k c, [])
      else get_message_loop received_data false (set_inbox k c)
    else
      get_message_loop (received_data ++ [b])
        (if Byte.eqb b MARK then true else found_message) (set_inbox k c).
Proof.
  intros [Hm Ho] Hi. rewrite get_message_loop_body.
  destruct c as [[m i p sp] cn sk sr ce we ib].
  cbn [inbox] in Hi. subst ib.
  unfold handle_open in Ho. cbn [mode rec_config sock ser] in *.
  destruct m; [congruence | destruct sk as [sk|]; [|discriminate]
              | destruct sr as [[|]|]; try discriminate].
  all: run; rewrite in_terminators_one;
    change (bytes_eqb [b] (B "!")) with (Byte.eqb b MARK && true);
    cbn [app]; rewrite andb_true_r, ?after_nil; reflexivity.
Qed.

(** The loop when nothing more is pending. *)
Lemma loop_end received_data found_message c :
  delimited_reader c ->
  inbox c = [] ->
  exists ev,
    get_message_loop received_data found_message c
    = (Ok (received_data, false), c, ev).
Proof.
  intros [Hm Ho] Hi. rewrite get_message_loop_body.
  destruct c as [[m i p sp] cn sk sr ce we ib].
  cbn [inbox] in Hi. subst ib.
  unfold handle_open in Ho. cbn [mode rec_config sock ser] in *.
  destruct m; [congruence | destruct sk as [sk|]; [|discriminate]
              | destruct sr as [[|]|]; try discriminate].
  all: run; eexists; reflexivity.
Qed.

(** Before the marker: terminators are skipped, other bytes kept. *)
Lemma loop_before_marker (pre : bytes) : forall received_data c k,
  delimited_reader c ->
  Forall (fun b => b <> MARK) pre ->
  inbox c = map Byte pre ++ k ->
  get_message_loop received_data false c
  = get_message_loop (received_data ++ filter not_terminator pre) false
      (set_inbox k c).
Proof.
  induction pre as [|b pre IH]; intros received_data c k Hr Hp Hi.
  - cbn [map app filter] in *. rewrite app_nil_r.
    destruct c; cbn in *; now subst.
  - inversion Hp as [|? ? Hb Hp']; subst. cbn [map app] in Hi.
    rewrite (@loop_byte _ _ _ _ _ Hr Hi).
    assert (Hne : Byte.eqb b MARK = false).
    { destruct (Byte.eqb b MARK) eqn:E; [|reflexivity].
      apply Byte.byte_dec_bl in E. contradiction. }
    rewrite Hne. cbn [filter]. unfold not_terminator at 1.
    destruct (is_terminator b); cbn [negb].
    + now rewrite (IH received_data (set_inbox (map Byte pre ++ k) c) k).
    + rewrite (IH (received_data ++ [b])
                 (set_inbox (map Byte pre ++ k) c) k); auto.
      now rewrite <- app_assoc.
Qed.

(** After the marker: every byte up to a terminator is kept. *)
Lemma loop_after_marker (body : bytes) : forall received_data c k,
  delimited_reader c ->
  Forall (fun b => is_terminator b = false) body ->
  inbox c = map Byte body ++ k ->
  get_message_loop received_data true c
  = get_message_loop (received_data ++ body) true (set_inbox k c).
Proof.
  induction body as [|b body IH]; intros received_data c k Hr Hp Hi.
  - cbn [map app] in *. rewrite app_nil_r.
    destruct c; cbn in *; now subst.
  - inversion Hp as [|? ? Hb Hp']; subst. cbn [map app] in Hi.
    rewrite (@loop_byte _ _ _ _ _ Hr Hi), Hb.
    replace (if Byte.eqb b MARK then true else true) with true
      by now destruct (Byte.eqb b MARK).
    rewrite (IH (received_data ++ [b])
               (set_inbox (map Byte body ++ k) c) k); auto.
    now rewrite <- app_assoc.
Qed.

Lemma marker_not_terminator : is_terminator MARK = false.
Proof. reflexivity. Qed.

(** The loop from the marker on. *)
Lemma loop_from_marker received_data c body t k :
  delimited_reader c ->
  Forall (fun b => is_terminator b = false) body ->
  is_terminator t = true ->
  inbox c = map Byte (MARK :: body ++ [t]) ++ k ->
  get_message_loop received_data false c
  = (Ok (received_data ++ MARK :: body, true), set_inbox k c, []).
Proof.
  intros Hr Hb Ht Hi. cbn [map app] in Hi.
  rewrite map_app, <- app_assoc in Hi. cbn [map app] in Hi.
  rewrite (@loop_byte _ _ _ _ _ Hr Hi), marker_not_terminator.
  change (Byte.eqb MARK MARK) with true. cbn iota.
  rewrite (@loop_after_marker body (received_data ++ [MARK])
             (set_inbox (map Byte body ++ Byte t :: k) c) (Byte t :: k));
    auto.
  rewrite (@loop_byte _ true _ t k); auto.
  rewrite Ht, <- app_assoc. reflexivity.
Qed.

(** A stream is cut at its first marker, if it has one. *)
Lemma first_marker (stream : bytes) :
  Forall (fun b => b <> MARK) stream
  \/ exists pre post,
       stream = pre ++ MARK :: post /\ Forall (fun b => b <> MARK) pre.
Proof.
  induction stream as [|b stream IH]; [left; constructor|].
  destruct (Byte.eqb b MARK) eqn:E.
  - apply Byte.byte_dec_bl in E. subst b. right. exists [], stream. now split.
  - apply Byte.eqb_false in E.
    destruct IH as [H|(pre & post & -> & H)].
    + left. now constructor.
    + right. exists (b :: pre), post. split; [reflexivity|now constructor].
Qed.

Lemma get_message_delimited (c : conn) :
  delimited_reader c -> get_message c = base_get_message c.
Proof.
  intros [Hm _]. unfold get_message.
  destruct (mode (rec_config c)); [congruence|reflexivity|reflexivity].
Qed.

Lemma filter_all_terminators (pre : bytes) :
  Forall (fun b => is_terminator b = true) pre ->
  filter not_terminator pre = [].
Proof.
  induction 1 as [|b pre Hb _ IH]; [reflexivity|].
  cbn [filter]. unfold not_terminator at 1. now rewrite Hb.
Qed.

(** C5, counterexample: a byte that is not a terminator and comes before
    the first [!] is part of the assembled message, which then does not
    begin at the [!]. *)
Lemma assembly_counterexample :
  get_message (tcp_reader (B "X!1PWR01" ++ [CR]))
  = (Ok (Some (B "X!1PWR01")), tcp_reader [],
     [Log DEBUG "total received %s, terminated %s"])
  /\ B "X!1PWR01" <> B "!1PWR01"
  /\ startswith (B "X!1PWR01") [MARK] = false.
Proof.
  split; [reflexivity|]. split; [discriminate|reflexivity].
Qed.

(** C5, amended: on a stream of bytes the assembled message consists of
    every byte that is not a terminator, from the start of the stream up
    to the first terminator that follows the first [!]; terminators
    before that [!] are skipped, so the message begins at the [!] when
    only terminators precede it.  When the stream runs out with no
    terminator after the first [!] (or with no [!] at all), the assembly
    ends and returns no message. *)
Theorem assembles_delimited_message (c : conn) :
  delimited_reader c ->
  (forall pre body t k,
      Forall (fun b => b <> MARK) pre ->
      Forall (fun b => is_terminator b = false) body ->
      is_terminator t = true ->
      inbox c = map Byte (pre ++ MARK :: body ++ [t]) ++ k ->
      exists message,
        get_message c
        = (Ok (Some message), set_inbox k c,
           [Log DEBUG "total received %s, terminated %s"])
        /\ message = filter not_terminator pre ++ MARK :: body
        /\ (Forall (fun b => is_terminator b = true) pre ->
            message = MARK :: body))
  /\ (forall stream,
         (forall pre post,
             stream = pre ++ MARK :: post ->
             Forall (fun b => is_terminator b = false) post) ->
         inbox c = map Byte stream ->
         exists ev,
           get_message c
           = (Ok None, set_inbox [] c,
              ev ++ [Log WARNING "total received %s, terminated %s"])).
Proof.
  intros Hr. rewrite (get_message_delimited Hr). unfold base_get_message.
  split.
  - intros pre body t k Hpre Hbody Ht Hi.
    rewrite map_app, <- app_assoc in Hi.
    exists (filter not_terminator pre ++ MARK :: body).
    split; [|split; [reflexivity|]].
    + unfold bind at 1.
      rewrite (@loop_before_marker pre [] c _ Hr Hpre Hi).
      rewrite (@loop_from_marker _ (set_inbox _ c) body t k); auto.
    + intros Hall. now rewrite (filter_all_terminators Hall).
  - intros stream Hun Hi. unfold bind at 1.
    destruct (first_marker stream) as [Hno|(pre & post & -> & Hpre)].
    + rewrite <- (app_nil_r (map Byte stream)) in Hi.
      rewrite (@loop_before_marker stream [] c _ Hr Hno Hi).
      destruct (@loop_end ([] ++ filter not_terminator stream) false
                  (set_inbox [] c)) as [ev Hev]; [exact Hr|reflexivity|].
      rewrite Hev. exists ev. reflexivity.
    + pose proof (Hun pre post eq_refl) as Hpost.
      rewrite map_app in Hi.
      rewrite (@loop_before_marker pre [] c _ Hr Hpre Hi).
      rewrite (@loop_byte _ false (set_inbox _ c) MARK (map Byte post));
        [|exact Hr|reflexivity].
      rewrite marker_not_terminator. change (Byte.eqb MARK MARK) with true.
      cbn iota.
      rewrite (@loop_after_marker post _ _ []); [|exact Hr|exact Hpost|].
      * destruct (@loop_end
                    ((([] ++ filter not_terminator pre) ++ [MARK]) ++ post)
                    true (set_inbox [] c)) as [ev Hev];
          [exact Hr|reflexivity|].
        replace (set_inbox [] (set_inbox (map Byte post) (set_inbox
                   (map Byte (MARK :: post)) c))) with (set_inbox [] c)
          by reflexivity.
        rewrite Hev. exists ev. reflexivity.
      * cbn. now rewrite app_nil_r.
Qed.

Lemma assembles_delimited_message_witness :
  (exists message,
      get_message (tcp_reader ([CR; CR] ++ MARK :: B "1PWR01" ++ [CR]))
      = (Ok (Some message), tcp_reader [],
         [Log DEBUG "total received %s, terminated %s"])
      /\ message = B "!1PWR01")
  /\ (exists ev,
         get_message (tcp_reader (B "!1PWR01"))
         = (Ok None, tcp_reader [],
            ev ++ [Log WARNING "total received %s, terminated %s"])).
Proof.
  assert (Hr : delimited_reader
                 (tcp_reader ([CR; CR] ++ MARK :: B "1PWR01" ++ [CR]))).
  { split; [discriminate|reflexivity]. }
  assert (Hr' : delimited_reader (tcp_reader (B "!1PWR01"))).
  { split; [discriminate|reflexivity]. }
  split.
  - destruct (assembles_delimited_message Hr) as [H _].
    destruct (H [CR; CR] (B "1PWR01") CR []) as (message & Hm & -> & _).
    + repeat constructor; discriminate.
    + repeat constructor.
    + reflexivity.
    + reflexivity.
    + exists (B "!1PWR01"). split; [exact Hm|reflexivity].
  - destruct (assembles_delimited_message Hr') as [_ H].
    destruct (H (B "!1PWR01")) as [ev Hev].
    + intros pre post Hs.
      destruct pre as [|b pre].
      * injection Hs as <-. repeat constructor.
      * exfalso. injection Hs as _ Hs.
        assert (Hin : In MARK (pre ++ MARK :: post)) by apply in_elt.
        rewrite <- Hs in Hin. cbn in Hin. repeat (destruct Hin as [Hin|Hin]; [discriminate Hin|]).
        exact Hin.
    + reflexivity.
    + exists ev. exact Hev.
Defined.

(** ** Reading a binary frame: [EiscpConnection.get_message] *)

Lemma set_inbox_same (c : conn) : set_inbox (inbox c) c = c.
Proof. now destruct c. Qed.

(** [_tcp_grab_bytes] on bytes that are all there. *)
Lemma grab_loop_bytes (bs : bytes) : forall data c k,
  sock c <> None ->
  inbox c = map Byte bs ++ k ->
  EiscpConnection.grab_loop (length bs) data c
  = (Ok (Some (data ++ bs)), set_inbox k c, []).
Proof.
  induction bs as [|b bs IH]; intros data c k Hs Hi.
  - cbn in *. subst k. now rewrite app_nil_r, set_inbox_same.
  - cbn [length EiscpConnection.grab_loop map app] in *.
    unfold bind at 1. unfold select_readable. rewrite Hi.
    destruct (sock c) as [s|] eqn:Es; [|congruence].
    unfold bind at 1. unfold recv_1. rewrite Es, Hi.
    rewrite (IH (data ++ [b]) (set_inbox (map Byte bs ++ k) c) k);
      [|cbn; congruence|reflexivity].
    now rewrite <- app_assoc.
Qed.

(** [_tcp_grab_bytes] when a wait expires before the last byte. *)
Lemma grab_loop_timeout (bs : bytes) : forall n data c k,
  sock c <> None ->
  inbox c = map Byte bs ++ Quiet :: k ->
  (length bs < n)%nat ->
  EiscpConnection.grab_loop n data c = (Ok None, set_inbox k c, []).
Proof.
  induction bs as [|b bs IH]; intros n data c k Hs Hi Hn;
    (destruct n as [|n]; [cbn in Hn; lia|]);
    cbn [length EiscpConnection.grab_loop map app] in *;
    unfold bind at 1; unfold select_readable; rewrite Hi;
    destruct (sock c) as [s|] eqn:Es; try congruence.
  - reflexivity.
  - unfold bind at 1. unfold recv_1. rewrite Es, Hi.
    rewrite (IH n (data ++ [b]) (set_inbox (map Byte bs ++ Quiet :: k) c) k);
      [reflexivity|cbn; congruence|reflexivity|lia].
Qed.

Lemma header_loop_body c :
  EiscpConnection.header_loop c
  = match EiscpConnection.check_for_message c with
    | (Raise e, c1, ev1) => (Raise e, c1, ev1)
    | (Ok false, c1, ev1) => (Ok [], c1, ev1)
    | (Ok true, c1, ev1) =>
        match EiscpConnection._tcp_grab_bytes 1 c1 with
        | (Raise e, c2, ev2) => (Raise e, c2, ev1 ++ ev2)
        | (Ok None, c2, ev2) =>
            (Raise ConnectionClosedException, c2, ev1 ++ ev2)
        | (Ok (Some []), c2, ev2) =>
            (Raise ConnectionClosedException, c2, ev1 ++ ev2)
        | (Ok (Some (b :: data)), c2, ev2) =>
            if bytes_eqb (b :: data) (B "I") then
              (Ok (b :: data), c2, ev1 ++ ev2)
            else after (ev1 ++ ev2) (EiscpConnection.header_loop c2)
        end
    end.
Proof.
  funelim (EiscpConnection.header_loop c).
  all: repeat match goal with
       | H : EiscpConnection.check_for_message ?c = _
         |- context [EiscpConnection.check_for_message ?c] => rewrite H
       | H : EiscpConnection._tcp_grab_bytes 1 ?c = _
         |- context [EiscpConnection._tcp_grab_bytes 1 ?c] => rewrite H
       end; reflexivity.
Qed.

(** One turn of the first loop on a pending byte. *)
Lemma header_loop_byte c b k :
  sock c <> None ->
  inbox c = Byte b :: k ->
  EiscpConnection.header_loop c
  = if Byte.eqb b LETTER_I then (Ok [b], set_inbox k c, [])
    else EiscpConnection.header_loop (set_inbox k c).
Proof.
  intros Hs Hi. rewrite header_loop_body.
  destruct c as [rc cn [sk|] sr ce we ib]; [|cbn in Hs; congruence].
  cbn [inbox] in Hi. subst ib.
  unfold EiscpConnection._tcp_grab_bytes.
  change (Z.to_nat 1) with 1%nat. cbn [EiscpConnection.grab_loop]. run.
  cbn [app].
  change (bytes_eqb [b] (B "I")) with (Byte.eqb b LETTER_I && true).
  rewrite andb_true_r, after_nil. reflexivity.
Qed.

(** The first loop skips what is not an [I] and stops after the first
    [I]. *)
Lemma header_loop_finds (junk : bytes) : forall c k,
  sock c <> None ->
  Forall (fun b => b <> LETTER_I) junk ->
  inbox c = map Byte junk ++ Byte LETTER_I :: k ->
  EiscpConnection.header_loop c = (Ok [LETTER_I], set_inbox k c, []).
Proof.
  induction junk as [|b junk IH]; intros c k Hs Hj Hi; cbn [map app] in Hi.
  - now rewrite (@header_loop_byte _ _ _ Hs Hi).
  - inversion Hj as [|? ? Hb Hj']; subst.
    rewrite (@header_loop_byte _ _ _ Hs Hi).
    destruct (Byte.eqb b LETTER_I) eqn:E.
    + apply Byte.byte_dec_bl in E. contradiction.
    + now rewrite (IH (set_inbox (map Byte junk ++ Byte LETTER_I :: k) c) k).
Qed.

Lemma bind_ok {A B} (m : M A) (f : A -> M B) c a c1 ev1 :
  m c = (Ok a, c1, ev1) -> bind m f c = after ev1 (f a c1).
Proof. intros H. unfold bind, after. now rewrite H. Qed.
Arguments bind_ok {A B} m f {c a c1 ev1} _.

(** What the stripping loop removes is the longest run of terminators
    at the end. *)
Lemma strip_terminators_spec (message : bytes) :
  exists tail,
    message = strip_terminators message ++ tail
    /\ Forall (fun b => is_terminator b = true) tail
    /\ endswith_terminator (strip_terminators message) = false.
Proof.
  funelim (strip_terminators message).
  - match goal with
    | IH : exists _, _ |- _ => destruct IH as (tail & Hm & Ht & He)
    end.
    match goal with
    | Hend : endswith_terminator ?m = true |- _ =>
        assert (Hb : endswith_terminator m = true) by exact Hend
    end.
    revert Hb Hm Ht He. clear - message tail. destruct message as [|b m _] using rev_ind; [discriminate|].
    unfold endswith_terminator at 1. rewrite rev_app_distr. cbn [rev app].
    rewrite removelast_last. intros Hb Hm Ht He.
    exists (tail ++ [b]). repeat split.
    + rewrite Hm at 1. now rewrite app_assoc.
    + apply Forall_app. split; [exact Ht|]. now constructor.
    + exact He.
  - exists []. rewrite app_nil_r. repeat split; [constructor|assumption].
Qed.

(** The reads of [get_message] up to the payload, on a frame that
    arrives whole: the header found after any bytes that are not [I],
    the header bytes past the sixteenth skipped. *)
Lemma eiscp_reads_frame (c : conn) (junk hdr extra payload : bytes)
  (k : list rd) (header_size data_size : Z) :
  sock c <> None ->
  Forall (fun b => b <> LETTER_I) junk ->
  length hdr = 15%nat ->
  Eiscp.extract_eiscp_header (LETTER_I :: hdr) = Some (header_size, data_size) ->
  length extra = Z.to_nat (header_size - 16) ->
  length payload = Z.to_nat data_size ->
  inbox c = map Byte (junk ++ LETTER_I :: hdr ++ extra ++ payload) ++ k ->
  EiscpConnection.get_message c
  = match payload with
    | [] =>
        (Ok None, set_inbox k c,
         [Log DEBUG "request did not contain data segment"])
    | _ :: _ =>
        if negb (startswith (strip_terminators payload) (B "!1")) then
          (Ok None, set_inbox k c,
           [Log DEBUG "request message was %s";
            Log DEBUG "request message did not begin with !1"])
        else
          (Ok (Some (strip_terminators payload)), set_inbox k c,
           [Log DEBUG "request message was %s"])
    end.
Proof.
  intros Hs Hj Hh He Hx Hp Hi.
  rewrite map_app in Hi. cbn [map] in Hi.
  rewrite !map_app, <- !app_assoc in Hi. cbn [app] in Hi.
  rewrite <- !app_assoc in Hi.
  unfold EiscpConnection.get_message.
  rewrite (bind_ok _ _ (@header_loop_finds junk c _ Hs Hj Hi)).
  unfold EiscpConnection._tcp_grab_bytes at 1.
  change (Z.to_nat 15) with 15%nat. rewrite <- Hh.
  rewrite (bind_ok _ _ (@grab_loop_bytes hdr [] (set_inbox _ c)
                        (map Byte extra ++ map Byte payload ++ k) Hs eq_refl)).
  cbn [app]. change ([LETTER_I] ++ hdr) with (LETTER_I :: hdr). rewrite He.
  assert (Hextra :
    (if 16 <? header_size
     then _ <- EiscpConnection._tcp_grab_bytes (header_size - 16);; ret tt
     else ret tt) (set_inbox (map Byte extra ++ map Byte payload ++ k) c)
    = (Ok tt, set_inbox (map Byte payload ++ k) c, [])).
  { destruct (16 <? header_size) eqn:E.
    - unfold EiscpConnection._tcp_grab_bytes. rewrite <- Hx.
      rewrite (bind_ok _ _ (@grab_loop_bytes extra [] (set_inbox _ c)
                            (map Byte payload ++ k) Hs eq_refl)).
      reflexivity.
    - apply Z.ltb_ge in E.
      replace (Z.to_nat (header_size - 16)) with 0%nat in Hx by lia.
      destruct extra; [reflexivity|discriminate]. }
  rewrite (bind_ok _ _ Hextra).
  unfold EiscpConnection._tcp_grab_bytes. rewrite <- Hp.
  rewrite (bind_ok _ _ (@grab_loop_bytes payload [] (set_inbox _ c) k Hs eq_refl)).
  cbn [app].
  destruct payload as [|b payload]; [reflexivity|].
  destruct (startswith (strip_terminators (b :: payload)) (B "!1"));
    reflexivity.
Qed.

(** C8: once a payload has been read (the header valid, every byte of
    the frame there), [get_message] strips every trailing terminator
    byte from it and returns the result if and only if it begins with
    the two bytes [!1]; otherwise it returns no message. *)
Theorem eiscp_message_filter (c : conn) (junk hdr extra payload : bytes)
  (k : list rd) (header_size data_size : Z) :
  sock c <> None ->
  Forall (fun b => b <> LETTER_I) junk ->
  length hdr = 15%nat ->
  Eiscp.extract_eiscp_header (LETTER_I :: hdr) = Some (header_size, data_size) ->
  length extra = Z.to_nat (header_size - 16) ->
  length payload = Z.to_nat data_size ->
  inbox c = map Byte (junk ++ LETTER_I :: hdr ++ extra ++ payload) ++ k ->
  exists message tail,
    payload = message ++ tail
    /\ Forall (fun b => is_terminator b = true) tail
    /\ endswith_terminator message = false
    /\ (firstn 2 message = B "!1" ->
        exists ev,
          EiscpConnection.get_message c = (Ok (Some message), set_inbox k c, ev))
    /\ (firstn 2 message <> B "!1" ->
        exists ev,
          EiscpConnection.get_message c = (Ok None, set_inbox k c, ev)).
Proof.
  intros Hs Hj Hh He Hx Hp Hi.
  rewrite (eiscp_reads_frame _ _ _ _ _ Hs Hj Hh He Hx Hp Hi).
  destruct (strip_terminators_spec payload) as (tail & Hm & Ht & Hend).
  exists (strip_terminators payload), tail.
  repeat split; try assumption.
  - intros H2. apply (startswith_firstn _ (B "!1")) in H2.
    destruct payload; [discriminate H2|]. rewrite H2. eexists. reflexivity.
  - intros H2. destruct payload; [eexists; reflexivity|].
    destruct (startswith (strip_terminators (b :: payload)) (B "!1")) eqn:E.
    + apply (startswith_firstn _ (B "!1")) in E. contradiction.
    + eexists. reflexivity.
Qed.

Lemma eiscp_message_filter_witness :
  exists message tail,
    B "!1PWR01" ++ [CR; LF] = message ++ tail
    /\ Forall (fun b => is_terminator b = true) tail
    /\ endswith_terminator message = false
    /\ (firstn 2 message = B "!1" ->
        exists ev,
          EiscpConnection.get_message
            (eiscp_reader
               (map Byte
                  ([] ++ LETTER_I
                      :: (B "SCP" ++ [x00; x00; x00; x10; x00; x00; x00; x09;
                                     x01; x00; x00; x00])
                      ++ [] ++ (B "!1PWR01" ++ [CR; LF])) ++ []))
          = (Ok (Some message), set_inbox [] (eiscp_reader []), ev))
    /\ (firstn 2 message <> B "!1" ->
        exists ev,
          EiscpConnection.get_message
            (eiscp_reader
               (map Byte
                  ([] ++ LETTER_I
                      :: (B "SCP" ++ [x00; x00; x00; x10; x00; x00; x00; x09;
                                     x01; x00; x00; x00])
                      ++ [] ++ (B "!1PWR01" ++ [CR; LF])) ++ []))
          = (Ok None, set_inbox [] (eiscp_reader []), ev)).
Proof.
  apply (@eiscp_message_filter
           (eiscp_reader
              (map Byte
                 ([] ++ LETTER_I
                     :: (B "SCP" ++ [x00; x00; x00; x10; x00; x00; x00; x09;
                                    x01; x00; x00; x00])
                     ++ [] ++ (B "!1PWR01" ++ [CR; LF])) ++ []))
           [] (B "SCP" ++ [x00; x00; x00; x10; x00; x00; x00; x09;
                           x01; x00; x00; x00])
           [] (B "!1PWR01" ++ [CR; LF]) [] 16 9).
  - discriminate.
  - constructor.
  - reflexivity.
  - reflexivity.
  - reflexivity.
  - reflexivity.
  - reflexivity.
Defined.

Example eiscp_accepts_zone_1 :
  option_map (fun packet => get_message (eiscp_reader (map Byte packet)))
    (Eiscp.build_eiscp_packet (B "!1PWR01"))
  = Some (Ok (Some (B "!1PWR01")), eiscp_reader [],
          [Log DEBUG "request message was %s"]).
Proof. reflexivity. Qed.

Example eiscp_drops_zone_2 :
  option_map (fun packet => get_message (eiscp_reader (map Byte packet)))
    (Eiscp.build_eiscp_packet (B "!2PWR01"))
  = Some (Ok None, eiscp_reader [],
          [Log DEBUG "request message was %s";
           Log DEBUG "request message did not begin with !1"]).
Proof. reflexivity. Qed.

(** ** Timeouts inside a binary frame *)

(** A wait that expires among the fifteen header bytes after the [I]
    makes [header += None] raise. *)
Lemma eiscp_header_timeout (c : conn) (junk hdr : bytes) (k : list rd) :
  sock c <> None ->
  Forall (fun b => b <> LETTER_I) junk ->
  (length hdr < 15)%nat ->
  inbox c = map Byte (junk ++ LETTER_I :: hdr) ++ Quiet :: k ->
  EiscpConnection.get_message c = (Raise TypeError, set_inbox k c, []).
Proof.
  intros Hs Hj Hh Hi.
  rewrite map_app in Hi. cbn [map] in Hi.
  rewrite <- !app_assoc in Hi. cbn [app] in Hi.
  unfold EiscpConnection.get_message.
  rewrite (bind_ok _ _ (@header_loop_finds junk c _ Hs Hj Hi)).
  unfold EiscpConnection._tcp_grab_bytes at 1.
  change (Z.to_nat 15) with 15%nat.
  rewrite (bind_ok _ _ (@grab_loop_timeout hdr 15 [] (set_inbox _ c) k
                          Hs eq_refl Hh)).
  reflexivity.
Qed.

(** A wait that expires among the payload bytes ends the read with no
    message and no exception. *)
Lemma eiscp_payload_timeout (c : conn) (junk hdr extra payload : bytes)
  (k : list rd) (header_size data_size : Z) :
  sock c <> None ->
  Forall (fun b => b <> LETTER_I) junk ->
  length hdr = 15%nat ->
  Eiscp.extract_eiscp_header (LETTER_I :: hdr) = Some (header_size, data_size) ->
  length extra = Z.to_nat (header_size - 16) ->
  (length payload < Z.to_nat data_size)%nat ->
  inbox c
  = map Byte (junk ++ LETTER_I :: hdr ++ extra ++ payload) ++ Quiet :: k ->
  EiscpConnection.get_message c
  = (Ok None, set_inbox k c,
     [Log DEBUG "request did not contain data segment"]).
Proof.
  intros Hs Hj Hh He Hx Hp Hi.
  rewrite map_app in Hi. cbn [map] in Hi.
  rewrite !map_app, <- !app_assoc in Hi. cbn [app] in Hi.
  rewrite <- !app_assoc in Hi.
  unfold EiscpConnection.get_message.
  rewrite (bind_ok _ _ (@header_loop_finds junk c _ Hs Hj Hi)).
  unfold EiscpConnection._tcp_grab_bytes at 1.
  change (Z.to_nat 15) with 15%nat. rewrite <- Hh.
  rewrite (bind_ok _ _ (@grab_loop_bytes hdr [] (set_inbox _ c)
                          (map Byte extra ++ map Byte payload ++ Quiet :: k)
                          Hs eq_refl)).
  cbn [app]. change ([LETTER_I] ++ hdr) with (LETTER_I :: hdr). rewrite He.
  assert (Hextra :
    (if 16 <? header_size
     then _ <- EiscpConnection._tcp_grab_bytes (header_size - 16);; ret tt
     else ret tt)
      (set_inbox (map Byte extra ++ map Byte payload ++ Quiet :: k) c)
    = (Ok tt, set_inbox (map Byte payload ++ Quiet :: k) c, [])).
  { destruct (16 <? header_size) eqn:E.
    - unfold EiscpConnection._tcp_grab_bytes. rewrite <- Hx.
      rewrite (bind_ok _ _ (@grab_loop_bytes extra [] (set_inbox _ c)
                              (map Byte payload ++ Quiet :: k) Hs eq_refl)).
      reflexivity.
    - apply Z.ltb_ge in E.
      replace (Z.to_nat (header_size - 16)) with 0%nat in Hx by lia.
      destruct extra; [reflexivity|discriminate]. }
  rewrite (bind_ok _ _ Hextra).
  unfold EiscpConnection._tcp_grab_bytes.
  rewrite (bind_ok _ _ (@grab_loop_timeout payload _ [] (set_inbox _ c) k
                          Hs eq_refl Hp)).
  reflexivity.
Qed.

(** A wait that expires among the header bytes past the sixteenth is not
    looked at: the read goes on with the payload, taking the bytes that
    come next for it. *)
Example eiscp_extra_header_timeout_ignored :
  get_message
    (eiscp_reader
       (map Byte (B "ISCP" ++ [x00; x00; x00; x11; x00; x00; x00; x08;
                               x01; x00; x00; x00])
          ++ [Quiet] ++ map Byte (B "!1PWR01" ++ [CR])))
  = (Ok (Some (B "!1PWR01")), eiscp_reader [],
     [Log DEBUG "request message was %s"]).
Proof. reflexivity. Qed.

(** C2, the code at the failing input: the peer sends [ISCP] and then
    nothing for a second.  [get_message] raises [TypeError]; no handler
    of [listen_forever] catches it, so the turn of the loop, and with it
    the listener, ends with that exception. *)
Theorem header_timeout_raises :
  get_message (eiscp_reader (map Byte (B "ISCP") ++ [Quiet]))
  = (Raise TypeError, eiscp_reader [], [])
  /\ ReceiverSyncService.secondary_listen_step
       (eiscp_reader (map Byte (B "ISCP") ++ [Quiet]))
     = (Raise TypeError, eiscp_reader [], tt, []).
Proof. split; reflexivity. Qed.

(** ** Disconnecting *)

(** The two TCP classes, on a connection the peer has not reset: a
    connected object ends disconnected, its socket released. *)
Lemma tcp_disconnect_disconnects (c : conn) :
  mode (rec_config c) <> Serial ->
  connected c = true ->
  sock c <> None ->
  reset_pending c = false ->
  _disconnect c
  = (Ok tt, set_connected false (set_sock None c),
     [Close (rec_config c); Log INFO "disconnected from receiver"])
  /\ connected (set_connected false (set_sock None c)) = false
  /\ sock (set_connected false (set_sock None c)) = None.
Proof.
  intros Hm Hc Hs Hr. destruct c as [[m i p sp] cn [sk|] sr ce we ib];
    [|cbn in Hs; congruence].
  cbn [mode rec_config connected] in *. subst cn.
  destruct m; [| |congruence];
    destruct ib as [|[b| | |] ib]; try discriminate Hr; repeat split.
Qed.

(** The two TCP classes, on a connection the peer has reset: [shutdown]
    raises, and the object is left as it was, connected and with its
    socket. *)
Lemma tcp_disconnect_on_reset (c : conn) :
  mode (rec_config c) <> Serial ->
  connected c = true ->
  sock c <> None ->
  reset_pending c = true ->
  _disconnect c = (Raise OSError, c, []).
Proof.
  intros Hm Hc Hs Hr. destruct c as [[m i p sp] cn [sk|] sr ce we ib];
    [|cbn in Hs; congruence].
  cbn [mode rec_config connected] in *. subst cn.
  destruct m; [| |congruence];
    destruct ib as [|[b| | |] ib]; try discriminate Hr; reflexivity.
Qed.

(** The serial class: the port is closed, and the object still says it
    is connected. *)
Lemma serial_disconnect_stays_connected (c : conn) :
  mode (rec_config c) = Serial ->
  connected c = true ->
  ser c = Some true ->
  _disconnect c
  = (Ok tt, set_ser (Some false) c,
     [Close (rec_config c); Log INFO "disconnected from receiver"])
  /\ connected (set_ser (Some false) c) = true
  /\ handle_open (set_ser (Some false) c) = false.
Proof.
  intros Hm Hc Hs. destruct c as [[m i p sp] cn sk sr ce we ib].
  cbn [mode rec_config connected ser] in *. subst m cn sr.
  repeat split.
Qed.

(** C3, the code at the failing input: [_disconnect] on a connected
    serial connection with its port open returns with the port closed
    and [connected] still true. *)
Theorem serial_disconnect_keeps_connected_flag :
  _disconnect serial_primary
  = (Ok tt, set_ser (Some false) serial_primary,
     [Close (rec_config serial_primary);
      Log INFO "disconnected from receiver"])
  /\ connected (set_ser (Some false) serial_primary) = true
  /\ handle_open (set_ser (Some false) serial_primary) = false.
Proof. repeat split. Qed.

(** A serial object in that state is not reconnected by
    [listen_forever]: the turn skips [_connect_to_receiver] and polls
    the closed port, which raises. *)
Example serial_listener_polls_closed_port :
  ReceiverSyncService.secondary_listen_step (set_ser (Some false) sec_c)
  = (Raise TypeError, set_ser (Some false) sec_c, tt, []).
Proof. reflexivity. Qed.

(** The delimited-TCP class on a socket its peer has not reset: the
    object ends disconnected, and the next turn of [listen_forever]
    reconnects it. *)
Example tcp_listener_reconnects :
  _disconnect (tcp_reader [])
  = (Ok tt, set_connected false (set_sock None (tcp_reader [])),
     [Close (rec_config (tcp_reader []));
      Log INFO "disconnected from receiver"])
  /\ ReceiverSyncService.secondary_listen_step
       (set_connected false (set_sock None (tcp_reader [])))
     = (Ok tt, tcp_reader [], tt,
        [Connect (rec_config (tcp_reader []));
         Log INFO "Connected to receiver at: %s:%s"]).
Proof. split; reflexivity. Qed.

(** A read that yields no message still reaches the callback: on the
    primary, [None.startswith] raises and ends the listener. *)
Example primary_listener_on_no_message :
  ReceiverSyncService.primary_listen_step
    (tcp_reader (B "!1PWR01")) [sec_a]
  = (Raise AttributeError, tcp_reader [], [sec_a],
     [Log WARNING "total received %s, terminated %s"]).
Proof. reflexivity. Qed.

(** ** Stripping terminators *)

Lemma strip_terminators_body (message : bytes) :
  strip_terminators message
  = if endswith_terminator message then strip_terminators (removelast message)
    else message.
Proof.
  funelim (strip_terminators message);
    match goal with
    | H : endswith_terminator ?m = _ |- context [endswith_terminator ?m] =>
        rewrite H
    end; reflexivity.
Qed.

Lemma strip_terminators_fixed (message : bytes) :
  endswith_terminator message = false -> strip_terminators message = message.
Proof. intros H. now rewrite strip_terminators_body, H. Qed.

Lemma endswith_terminator_snoc (message : bytes) (t : byte) :
  endswith_terminator (message ++ [t]) = is_terminator t.
Proof. unfold endswith_terminator. now rewrite rev_app_distr. Qed.

Lemma strip_terminators_snoc (message : bytes) (t : byte) :
  is_terminator t = true ->
  strip_terminators (message ++ [t]) = strip_terminators message.
Proof.
  intros H. rewrite strip_terminators_body, endswith_terminator_snoc, H.
  now rewrite removelast_last.
Qed.

(** ** The wire format, from the sender to the reader *)

(** What [build_eiscp_packet] returns, byte by byte. *)
Lemma built_packet_shape (message packet : bytes) :
  Eiscp.build_eiscp_packet message = Some packet ->
  exists d1 d2 d3 d4,
    packet
    = LETTER_I
        :: [ "S"; "C"; "P"; x00; x00; x00; x10; d1; d2; d3; d4;
             x01; x00; x00; x00 ]%byte ++ message ++ [CR]
    /\ int_from_bytes_big [d1; d2; d3; d4] = len message + 1.
Proof.
  intros Hb. unfold Eiscp.build_eiscp_packet in Hb.
  destruct (Eiscp.pack_I (len message + 1)) as [ds|] eqn:Hds;
    [|destruct (Eiscp.pack_I 16); discriminate].
  destruct (@pack_I_roundtrip _ _ Hds) as [Hd Hdl].
  destruct ds as [|d1 [|d2 [|d3 [|d4 [|]]]]]; try discriminate Hdl.
  cbn in Hb. injection Hb as <-.
  exists d1, d2, d3, d4. split; [reflexivity|exact Hd].
Qed.

(** A built packet pending on a binary-transport socket is read back
    whole. *)
Lemma eiscp_reads_packet (message packet : bytes) (c : conn) (k : list rd) :
  Eiscp.build_eiscp_packet message = Some packet ->
  sock c <> None ->
  inbox c = map Byte packet ++ k ->
  EiscpConnection.get_message c
  = if negb (startswith (strip_terminators message) (B "!1")) then
      (Ok None, set_inbox k c,
       [Log DEBUG "request message was %s";
        Log DEBUG "request message did not begin with !1"])
    else
      (Ok (Some (strip_terminators message)), set_inbox k c,
       [Log DEBUG "request message was %s"]).
Proof.
  intros Hb Hs Hi.
  destruct (built_packet_shape _ Hb) as (d1 & d2 & d3 & d4 & -> & Hd).
  pose (hdr := [ "S"; "C"; "P"; x00; x00; x00; x10; d1; d2; d3; d4;
                 x01; x00; x00; x00 ]%byte).
  assert (He : Eiscp.extract_eiscp_header (LETTER_I :: hdr)
               = Some (16, len message + 1)).
  { change (LETTER_I :: hdr)
      with (B "ISCP" ++ [x00; x00; x00; x10; d1; d2; d3; d4; x01; x00; x00; x00]).
    rewrite header_fields. cbn [firstn skipn]. rewrite Hd. reflexivity. }
  rewrite (@eiscp_reads_frame c [] hdr [] (message ++ [CR]) k 16 (len message + 1));
    try assumption; try reflexivity.
  - rewrite strip_terminators_snoc by reflexivity.
    destruct (message ++ [CR]) eqn:E; [now destruct message|]. reflexivity.
  - constructor.
  - rewrite length_app. cbn. unfold len. lia.
Qed.

(** X1: what one binary-transport connection prepares for the wire,
    another reads back.  When the packet [_prep_message_for_receiver]
    makes of [message] arrives on a socket of an [EiscpConnection], its
    [get_message] consumes exactly the packet and returns [message]
    less its trailing terminator bytes, or [None] when that does not
    start with [!1]. *)
Theorem eiscp_wire_roundtrip (message packet : bytes)
  (sender sender' c : conn) (ev0 : list event) (k : list rd) :
  mode (rec_config sender) = EISCP ->
  _prep_message_for_receiver message sender = (Ok packet, sender', ev0) ->
  mode (rec_config c) = EISCP ->
  sock c <> None ->
  inbox c = map Byte packet ++ k ->
  exists ev,
    get_message c
    = (if startswith (strip_terminators message) (B "!1")
       then Ok (Some (strip_terminators message)) else Ok None,
       set_inbox k c, ev).
Proof.
  intros Hm Hp Hc Hs Hi.
  unfold _prep_message_for_receiver in Hp. rewrite Hm in Hp.
  unfold EiscpConnection._prep_message_for_receiver in Hp.
  destruct (Eiscp.build_eiscp_packet message) as [p|] eqn:Hb;
    cbv [ret raise] in Hp; [|discriminate Hp].
  injection Hp as -> _ _.
  unfold get_message. rewrite Hc.
  rewrite (@eiscp_reads_packet message packet c k Hb Hs Hi).
  destruct (startswith (strip_terminators message) (B "!1"));
    eexists; reflexivity.
Qed.

Lemma eiscp_wire_roundtrip_witness :
  exists ev,
    get_message (eiscp_reader (map Byte power_on_packet))
    = (Ok (Some (B "!1PWR01")), eiscp_reader [], ev).
Proof.
  destruct (@eiscp_wire_roundtrip (B "!1PWR01") power_on_packet
              (eiscp_reader []) (eiscp_reader []) (eiscp_reader (map Byte power_on_packet))
              [] [])
    as [ev H]; try reflexivity; try discriminate.
  rewrite (@strip_terminators_fixed (B "!1PWR01")) in H by reflexivity.
  exists ev. exact H.
Defined.

Lemma filter_no_terminators (data : bytes) :
  Forall (fun b => is_terminator b = false) data ->
  filter not_terminator data = data.
Proof.
  induction 1 as [|b data Hb _ IH]; [reflexivity|].
  cbn [filter]. unfold not_terminator at 1. rewrite Hb. cbn. now rewrite IH.
Qed.

(** A complete message pending on a delimited transport is read whole,
    whichever terminator ends it. *)
Lemma delimited_read_complete (message : bytes) (t : byte) (c : conn)
  (k : list rd) :
  delimited_reader c ->
  In MARK message ->
  Forall (fun b => is_terminator b = false) message ->
  is_terminator t = true ->
  inbox c = map Byte (message ++ [t]) ++ k ->
  get_message c
  = (Ok (Some message), set_inbox k c,
     [Log DEBUG "total received %s, terminated %s"]).
Proof.
  intros Hr Hin Hnt Ht Hi.
  destruct (first_marker message) as [Hno|(pre & post & -> & Hpre)].
  - exfalso. rewrite Forall_forall in Hno. now apply (Hno MARK).
  - apply Forall_app in Hnt as [Hnpre Hnpost]. inversion Hnpost; subst.
    rewrite (get_message_delimited Hr). unfold base_get_message.
    rewrite <- app_assoc, map_app, <- app_assoc in Hi.
    unfold bind at 1.
    rewrite (@loop_before_marker pre [] c _ Hr Hpre Hi).
    rewrite (@loop_from_marker _ (set_inbox _ c) post t k); auto.
    cbn [app]. rewrite (filter_no_terminators Hnpre). reflexivity.
Qed.

(** X2: the same for the two delimited transports.  When what an
    [IscpTcpConnection] or [IscpSerialConnection] prepares for the wire
    from [message] arrives on a delimited connection, [get_message]
    consumes exactly those bytes and returns [message], provided the
    message holds a [!] and no terminator byte. *)
Theorem delimited_wire_roundtrip (message wire : bytes)
  (sender sender' c : conn) (ev0 : list event) (k : list rd) :
  mode (rec_config sender) <> EISCP ->
  _prep_message_for_receiver message sender = (Ok wire, sender', ev0) ->
  delimited_reader c ->
  In MARK message ->
  Forall (fun b => is_terminator b = false) message ->
  inbox c = map Byte wire ++ k ->
  get_message c
  = (Ok (Some message), set_inbox k c,
     [Log DEBUG "total received %s, terminated %s"]).
Proof.
  intros Hm Hp Hr Hin Hnt Hi.
  assert (wire = message ++ [CR]) as ->.
  { unfold _prep_message_for_receiver in Hp.
    destruct (mode (rec_config sender)); [congruence| |];
      cbv in Hp; now injection Hp. }
  now apply (@delimited_read_complete message CR c k).
Qed.

Lemma delimited_wire_roundtrip_witness :
  get_message (tcp_reader (B "!1PWR01" ++ [CR]))
  = (Ok (Some (B "!1PWR01")),
     set_inbox [] (tcp_reader (B "!1PWR01" ++ [CR])),
     [Log DEBUG "total received %s, terminated %s"]).
Proof.
  apply (@delimited_wire_roundtrip (B "!1PWR01") (B "!1PWR01" ++ [CR])
           sec_c sec_c (tcp_reader (B "!1PWR01" ++ [CR])) [] []).
  - discriminate.
  - reflexivity.
  - split; [discriminate|reflexivity].
  - now left.
  - repeat constructor.
  - reflexivity.
Defined.

(** ** The shape of what a read returns *)

Lemma bind_ok_inv {A R} (m : M A) (f : A -> M R) c b c' ev :
  bind m f c = (Ok b, c', ev) ->
  exists a c1 ev1 ev2,
    m c = (Ok a, c1, ev1) /\ f a c1 = (Ok b, c', ev2) /\ ev = ev1 ++ ev2.
Proof.
  unfold bind. destruct (m c) as [[[a|e] c1] ev1]; [|discriminate].
  destruct (f a c1) as [[r c2] ev2] eqn:E. intros [= -> -> <-].
  now exists a, c1, ev1, ev2.
Qed.

Lemma after_ok_inv {A} (ev0 : list event) (o : outcome A) a c ev :
  after ev0 o = (Ok a, c, ev) -> exists ev1, o = (Ok a, c, ev1).
Proof. destruct o as [[r c1] ev1]. cbn. intros [= -> -> _]. now exists ev1. Qed.

Lemma get_one_byte_single c d c1 ev :
  _get_one_byte c = (Ok (Some d), c1, ev) -> (length d <= 1)%nat.
Proof.
  unfold _get_one_byte. destruct (mode (rec_config c)).
  - discriminate.
  - destruct c as [rc cn [sk|] sr ce we [|[b'| | |] ib]]; cbn;
      inversion 1; subst; cbn; lia.
  - destruct c as [rc cn sk [[|]|] ce we [|[b'| | |] ib]]; cbn;
      inversion 1; subst; cbn; lia.
Qed.

(** One turn of the assembling loop on a byte that is no terminator
    keeps the two facts the loop maintains. *)
Lemma nonterminator_step c1 b data c2 ev2 received_data found_message
  (P : Prop) :
  _get_one_byte c1 = (Ok (Some (b :: data)), c2, ev2) ->
  in_terminators (b :: data) = false ->
  Forall (fun b => is_terminator b = false) received_data ->
  (found_message = true -> In MARK received_data) ->
  (Forall (fun b => is_terminator b = false) (received_data ++ b :: data) ->
   ((if bytes_eqb (b :: data) (B "!") then true else found_message) = true ->
    In MARK (received_data ++ b :: data)) -> P) ->
  P.
Proof.
  intros H2 Ht Hnt Hfound HP.
  pose proof (get_one_byte_single _ H2) as Hone.
  destruct data; [|cbn in Hone; lia].
  rewrite in_terminators_one in Ht.
  apply HP.
  - apply Forall_app. split; [assumption|]. now constructor.
  - intros Hf. apply in_or_app.
    change (bytes_eqb [b] (B "!")) with (Byte.eqb b MARK && true) in Hf.
    rewrite andb_true_r in Hf.
    destruct (Byte.eqb b MARK) eqn:E.
    + apply Byte.byte_dec_bl in E. subst. right. now left.
    + left. auto.
Qed.

Lemma loop_message_shape received_data found_message c :
  forall m c' ev,
  get_message_loop received_data found_message c = (Ok (m, true), c', ev) ->
  Forall (fun b => is_terminator b = false) received_data ->
  (found_message = true -> In MARK received_data) ->
  Forall (fun b => is_terminator b = false) m /\ In MARK m.
Proof.
  funelim (get_message_loop received_data found_message c);
    intros m c' ev Hres Hnt Hfound; try discriminate Hres.
  all: try (apply after_ok_inv in Hres as [ev' Hres]).
  all: lazymatch goal with
       | H2 : _get_one_byte _ = _, Ht : in_terminators _ = false,
         IH : forall _ _ _, _ = _ -> _ |- _ =>
           eapply (@nonterminator_step _ _ _ _ _ _ _ _ H2 Ht Hnt Hfound);
           intros Hnt' Hf'; eapply IH; [exact Hres | exact Hnt' | exact Hf']
       | IH : forall _ _ _, _ = _ -> _ |- _ =>
           eapply IH; [exact Hres | exact Hnt | discriminate]
       | _ => injection Hres as <- _ _; auto
       end.
Qed.

(** X3: whatever the stream, its errors and its pauses, a message the
    base class's [get_message] returns holds no terminator byte and
    holds a [!]: it is never empty, and never a run of line noise. *)
Theorem assembled_message_shape (c c' : conn) (message : bytes)
  (ev : list event) :
  base_get_message c = (Ok (Some message), c', ev) ->
  Forall (fun b => is_terminator b = false) message /\ In MARK message.
Proof.
  unfold base_get_message. intros H.
  apply bind_ok_inv in H as ([m t] & c1 & ev1 & ev2 & Hl & Hk & _).
  destruct t.
  - cbv [bind emit ret] in Hk. injection Hk as <- _ _.
    eapply loop_message_shape; eauto. discriminate.
  - cbv [bind emit ret] in Hk. discriminate.
Qed.

Lemma assembled_message_shape_witness :
  Forall (fun b => is_terminator b = false) (B "!1PWR01")
  /\ In MARK (B "!1PWR01").
Proof.
  apply (@assembled_message_shape (tcp_reader (B "!1PWR01" ++ [CR]))
           (tcp_reader []) (B "!1PWR01")
           [Log DEBUG "total received %s, terminated %s"]).
  reflexivity.
Defined.

(** X4: whatever arrives on the socket, a message
    [EiscpConnection.get_message] returns starts with [!1] and does not
    end in a terminator byte. *)
Theorem eiscp_message_shape (c c' : conn) (message : bytes) (ev : list event) :
  EiscpConnection.get_message c = (Ok (Some message), c', ev) ->
  firstn 2 message = B "!1" /\ endswith_terminator message = false.
Proof.
  unfold EiscpConnection.get_message. intros H.
  apply bind_ok_inv in H as (header & c1 & ev1 & ev2 & _ & H & _).
  apply bind_ok_inv in H as (rest & c2 & ev3 & ev4 & _ & H & _).
  destruct rest as [rest|]; [|discriminate H].
  destruct (Eiscp.extract_eiscp_header (header ++ rest)) as [[hs ds]|].
  - apply bind_ok_inv in H as (u & c3 & ev5 & ev6 & _ & H & _).
    apply bind_ok_inv in H as (payload & c4 & ev7 & ev8 & _ & H & _).
    destruct payload as [[|b payload]|]; try (cbv [bind emit ret] in H; discriminate H).
    apply bind_ok_inv in H as (u' & c5 & ev9 & ev10 & _ & H & _).
    destruct (startswith (strip_terminators (b :: payload)) (B "!1")) eqn:E;
      cbn [negb] in H.
    + cbv [ret] in H. injection H as <- _ _. split.
      * now apply (startswith_firstn _ (B "!1")).
      * now destruct (strip_terminators_spec (b :: payload)) as (t & _ & _ & He).
    + cbv [bind emit ret] in H. discriminate H.
  - cbv [bind emit ret] in H. discriminate H.
Qed.

(** The packet of [!1PWR01] is read back as [!1PWR01]. *)
Example power_on_packet_read :
  EiscpConnection.get_message (eiscp_reader (map Byte power_on_packet))
  = (Ok (Some (B "!1PWR01")), eiscp_reader [],
     [Log DEBUG "request message was %s"]).
Proof.
  rewrite (@eiscp_reads_packet (B "!1PWR01") power_on_packet _ []);
    [|reflexivity|discriminate|reflexivity].
  rewrite (@strip_terminators_fixed (B "!1PWR01")) by reflexivity.
  reflexivity.
Qed.

Lemma eiscp_message_shape_witness :
  firstn 2 (B "!1PWR01") = B "!1" /\ endswith_terminator (B "!1PWR01") = false.
Proof.
  apply (@eiscp_message_shape (eiscp_reader (map Byte power_on_packet))
           (eiscp_reader []) (B "!1PWR01")
           [Log DEBUG "request message was %s"]).
  exact power_on_packet_read.
Defined.

(** ** The framer on any well-formed packet *)

(** X5: decoding any well-formed packet, not only those
    [build_eiscp_packet] makes.  For a packet of the magic, a header
    size and a data size packed as 32-bit big-endian integers, filler up
    to the header size, [data_size] bytes of payload and anything after
    them, [extract_eiscp_header] returns the two sizes and
    [extract_eiscp_message] returns the payload less its last byte. *)
Theorem extract_message_payload (header_size data_size : Z)
  (hs ds filler payload rest : bytes) :
  Eiscp.pack_I header_size = Some hs ->
  Eiscp.pack_I data_size = Some ds ->
  len filler = header_size - 12 ->
  len payload = data_size ->
  let data := B "ISCP" ++ hs ++ ds ++ filler ++ payload ++ rest in
  Eiscp.extract_eiscp_header data = Some (header_size, data_size)
  /\ Eiscp.extract_eiscp_message data = Some (removelast payload).
Proof.
  intros Hhs Hds Hf Hp data.
  destruct (@pack_I_roundtrip _ _ Hhs) as [Hh Hhl].
  destruct (@pack_I_roundtrip _ _ Hds) as [Hd Hdl].
  assert (Hhead : Eiscp.extract_eiscp_header data = Some (header_size, data_size)).
  { subst data. rewrite header_fields.
    destruct hs as [|h1 [|h2 [|h3 [|h4 [|]]]]]; try discriminate Hhl.
    destruct ds as [|d1 [|d2 [|d3 [|d4 [|]]]]]; try discriminate Hdl.
    cbn [app firstn skipn]. now rewrite Hh, Hd. }
  split; [exact Hhead|].
  unfold Eiscp.extract_eiscp_message. rewrite Hhead.
  assert (Hlen : 0 <= len filler) by (unfold len; lia).
  assert (Hcase : payload = [] \/ 1 <= len payload)
    by (destruct payload; [now left|right; unfold len; cbn; lia]).
  destruct Hcase as [->|Hpl].
  - assert (Hz : data_size = 0) by (unfold len in Hp; cbn in Hp; lia).
    f_equal. unfold slice, slice_bound.
    destruct (header_size <? 0) eqn:E1; [apply Z.ltb_lt in E1; lia|].
    destruct (header_size + data_size - 1 <? 0) eqn:E2;
      [apply Z.ltb_lt in E2; lia|].
    replace (Z.to_nat
               (Z.min (header_size + data_size - 1) (len data)
                - Z.min header_size (len data))) with 0%nat
      by lia.
    reflexivity.
  - rewrite slice_nonneg by lia. subst data.
    replace (B "ISCP" ++ hs ++ ds ++ filler ++ payload ++ rest)
      with ((B "ISCP" ++ hs ++ ds ++ filler) ++ payload ++ rest)
      by (now rewrite <- !app_assoc).
    assert (Hpre : length (B "ISCP" ++ hs ++ ds ++ filler)
                   = Z.to_nat header_size).
    { rewrite !length_app, Hhl, Hdl. unfold len in Hf. cbn. lia. }
    rewrite <- Hpre, skipn_app, skipn_all, Nat.sub_diag. cbn [skipn app].
    replace (Z.to_nat (header_size + data_size - 1 - header_size))
      with (pred (length payload)) by (unfold len in *; lia).
    rewrite firstn_app.
    replace (pred (length payload) - length payload)%nat with 0%nat by lia.
    cbn [firstn]. rewrite app_nil_r. now rewrite <- removelast_firstn_len.
Qed.

Lemma extract_message_payload_witness :
  Eiscp.extract_eiscp_header
    (B "ISCP" ++ [x00; x00; x00; x12] ++ [x00; x00; x00; x08]
       ++ [x01; x00; x00; x00; x00; x00] ++ (B "!1PWR01" ++ [SUB])
       ++ B "ISCP")
  = Some (18, 8)
  /\ Eiscp.extract_eiscp_message
       (B "ISCP" ++ [x00; x00; x00; x12] ++ [x00; x00; x00; x08]
          ++ [x01; x00; x00; x00; x00; x00] ++ (B "!1PWR01" ++ [SUB])
          ++ B "ISCP")
     = Some (removelast (B "!1PWR01" ++ [SUB])).
Proof.
  apply (@extract_message_payload 18 8 [x00; x00; x00; x12]
           [x00; x00; x00; x08] [x01; x00; x00; x00; x00; x00]
           (B "!1PWR01" ++ [SUB]) (B "ISCP")); reflexivity.
Defined.

(** X6: when the peer closes the socket before the [num_bytes] asked
    for have arrived, [_tcp_grab_bytes] returns the bytes it has, fewer
    than asked for, and raises nothing; the end of the stream stays
    pending. *)
Theorem grab_bytes_short_on_close (bs : bytes) : forall (n : Z) (c : conn)
  (k : list rd),
  sock c <> None ->
  inbox c = map Byte bs ++ Eof :: k ->
  len bs < n ->
  EiscpConnection._tcp_grab_bytes n c
  = (Ok (Some bs), set_inbox (Eof :: k) c, []).
Proof.
  intros n c k Hs Hi Hn. unfold EiscpConnection._tcp_grab_bytes.
  assert (G : forall bs m data c,
             sock c <> None -> inbox c = map Byte bs ++ Eof :: k ->
             EiscpConnection.grab_loop (length bs + m) data c
             = (Ok (Some (data ++ bs)), set_inbox (Eof :: k) c, [])).
  { clear. induction bs as [|b bs IH]; intros m data c Hs Hi.
    - cbn [length map app Nat.add] in *. rewrite app_nil_r.
      revert data. induction m as [|m IHm]; intros data.
      + cbn. now rewrite <- Hi, set_inbox_same.
      + cbn [EiscpConnection.grab_loop]. unfold bind at 1.
        unfold select_readable. rewrite Hi.
        destruct (sock c) as [sk|] eqn:Es; [|congruence].
        unfold bind at 1. unfold recv_1. rewrite Es, Hi.
        rewrite app_nil_r. rewrite IHm. reflexivity.
    - cbn [length map app Nat.add EiscpConnection.grab_loop] in *.
      unfold bind at 1. unfold select_readable. rewrite Hi.
      destruct (sock c) as [sk|] eqn:Es; [|congruence].
      unfold bind at 1. unfold recv_1. rewrite Es, Hi.
      rewrite (IH m (data ++ [b]) (set_inbox (map Byte bs ++ Eof :: k) c));
        [|cbn; congruence|reflexivity].
      now rewrite <- app_assoc. }
  replace (Z.to_nat n) with (length bs + (Z.to_nat n - length bs))%nat
    by (unfold len in Hn; lia).
  now rewrite G.
Qed.

Lemma grab_bytes_short_on_close_witness :
  EiscpConnection._tcp_grab_bytes 15
    (eiscp_reader (map Byte (B "SCP") ++ [Eof]))
  = (Ok (Some (B "SCP")),
     set_inbox [Eof] (eiscp_reader (map Byte (B "SCP") ++ [Eof])), []).
Proof.
  apply (@grab_bytes_short_on_close (B "SCP") 15
           (eiscp_reader (map Byte (B "SCP") ++ [Eof])) []).
  - discriminate.
  - reflexivity.
  - reflexivity.
Defined.

(** ** Connecting *)

(** X7: a failed connect attempt is logged and re-raised by
    [_connect_to_receiver] of all three classes, the object staying as
    connected as it was; the two socket classes keep the socket they
    created for the attempt. *)
Theorem connect_failure_reraises (c : conn) (e : exn) :
  port_open c = false ->
  next_outcome (connect_env c) = Some e ->
  exists c' ev,
    _connect_to_receiver c = (Raise e, c', ev)
    /\ io_events ev = [ConnectFailed (rec_config c) e]
    /\ connected c' = connected c
    /\ connect_env c' = tl (connect_env c)
    /\ ser c' = ser c
    /\ (mode (rec_config c) <> Serial -> sock c' = Some Socket)
    /\ inbox c' = inbox c /\ write_env c' = write_env c.
Proof.
  intros Hp He. destruct c as [[m i p sp] cn sk sr ce we ib].
  destruct ce as [|[e'|] ce]; try discriminate He. injection He as ->.
  destruct m, sk as [[]|], sr as [[|]|]; try discriminate Hp;
    run; do 2 eexists; repeat split; congruence.
Qed.

Lemma connect_failure_reraises_witness :
  exists c' ev,
    _connect_to_receiver (fresh_tcp [Some OSError]) = (Raise OSError, c', ev)
    /\ io_events ev = [ConnectFailed (rec_config (fresh_tcp [Some OSError])) OSError]
    /\ connected c' = connected (fresh_tcp [Some OSError])
    /\ connect_env c' = tl (connect_env (fresh_tcp [Some OSError]))
    /\ ser c' = ser (fresh_tcp [Some OSError])
    /\ (mode (rec_config (fresh_tcp [Some OSError])) <> Serial ->
        sock c' = Some Socket)
    /\ inbox c' = inbox (fresh_tcp [Some OSError])
    /\ write_env c' = write_env (fresh_tcp [Some OSError]).
Proof.
  apply (@connect_failure_reraises (fresh_tcp [Some OSError]) OSError);
    reflexivity.
Defined.

(** X8: when the attempt succeeds, or a serial port is open already,
    [_connect_to_receiver] returns with the object connected and its
    handle open, having opened at most one connection. *)
Theorem connect_success (c : conn) :
  (port_open c = false -> next_outcome (connect_env c) = None) ->
  exists c' ev,
    _connect_to_receiver c = (Ok tt, c', ev)
    /\ connected c' = true
    /\ handle_open c' = true
    /\ io_events ev
       = (if port_open c then [] else [Connect (rec_config c)])
    /\ connect_env c'
       = (if port_open c then connect_env c else tl (connect_env c))
    /\ inbox c' = inbox c /\ write_env c' = write_env c.
Proof.
  intros He. destruct c as [[m i p sp] cn sk sr ce we ib].
  destruct m, sk as [[]|], sr as [[|]|];
    cbn [port_open mode rec_config ser] in *;
    try (specialize (He eq_refl));
    destruct ce as [|[e'|] ce];
    try match type of He with _ = _ => discriminate He end;
    run; do 2 eexists; repeat split; reflexivity.
Qed.

Lemma connect_success_witness :
  exists c' ev,
    _connect_to_receiver (fresh_tcp []) = (Ok tt, c', ev)
    /\ connected c' = true
    /\ handle_open c' = true
    /\ io_events ev = [Connect (rec_config (fresh_tcp []))]
    /\ connect_env c' = []
    /\ inbox c' = [] /\ write_env c' = [].
Proof.
  apply (@connect_success (fresh_tcp [])). reflexivity.
Defined.

(** ** Sending without a reset *)

(** X9: when nothing fails, [send_message_to_receiver] connects first
    if the object is not connected, writes the prepared message exactly
    once and leaves the object connected; it reads nothing. *)
Theorem send_writes_once (message wire : bytes) (c : conn) :
  (if connected c then handle_open c = true
   else port_open c = false -> next_outcome (connect_env c) = None) ->
  wire_of (mode (rec_config c)) message = Some wire ->
  next_outcome (write_env c) = None ->
  exists c' ev,
    send_message_to_receiver message c = (Ok tt, c', ev)
    /\ io_events ev
       = (if connected c || port_open c then [] else [Connect (rec_config c)])
         ++ [Write (rec_config c) wire]
    /\ connected c' = true
    /\ handle_open c' = true
    /\ write_env c' = tl (write_env c)
    /\ inbox c' = inbox c.
Proof.
  intros Hc Hw He. destruct c as [[m i p sp] cn sk sr ce we ib].
  unfold send_message_to_receiver.
  destruct m, cn, sk as [[]|], sr as [[|]|];
    cbn [port_open handle_open wire_of mode rec_config ser sock connected
         connect_env write_env] in *;
    try match type of Hc with _ = _ => discriminate Hc end;
    try (specialize (Hc eq_refl));
    destruct ce as [|[e'|] ce];
    try match type of Hc with _ = _ => discriminate Hc end;
    destruct we as [|[e2|] we]; try discriminate He;
    try injection Hw as <-;
    run; rewrite ?Hw; run; do 2 eexists; repeat split; reflexivity.
Qed.

Lemma send_writes_once_witness :
  exists c' ev,
    send_message_to_receiver (B "!1PWRQSTN") (fresh_tcp []) = (Ok tt, c', ev)
    /\ io_events ev
       = [Connect (rec_config (fresh_tcp []));
          Write (rec_config (fresh_tcp [])) (B "!1PWRQSTN" ++ [CR])]
    /\ connected c' = true
    /\ handle_open c' = true
    /\ write_env c' = []
    /\ inbox c' = [].
Proof.
  apply (@send_writes_once (B "!1PWRQSTN") (B "!1PWRQSTN" ++ [CR])
           (fresh_tcp [])).
  - cbn. intros _. reflexivity.
  - reflexivity.
  - reflexivity.
Defined.

(** X10: only a reset is answered.  A write that fails with any other
    exception ends [send_message_to_receiver] with that exception after
    the one attempt: no sleep, no disconnect, no reconnect. *)
Theorem send_other_error_not_retried (message wire : bytes) (c : conn)
  (e : exn) (rest : list (option exn)) :
  connected c = true ->
  handle_open c = true ->
  wire_of (mode (rec_config c)) message = Some wire ->
  write_env c = Some e :: rest ->
  e <> ConnectionResetError ->
  send_message_to_receiver message c
  = (Raise e, set_write_env rest c, [WriteFailed (rec_config c) wire e]).
Proof.
  intros Hc Ho Hw He Hne. destruct c as [[m i p sp] cn sk sr ce we ib].
  unfold send_message_to_receiver.
  cbn [connected write_env] in *. subst cn we.
  destruct m, sk as [[]|], sr as [[|]|];
    cbn [handle_open wire_of mode rec_config ser sock] in *;
    try discriminate Ho; try injection Hw as <-;
    destruct e; try congruence;
    run; rewrite ?Hw; run; reflexivity.
Qed.

Lemma send_other_error_not_retried_witness :
  send_message_to_receiver (B "!1PWR01") broken_tcp
  = (Raise OSError, set_write_env [] broken_tcp,
     [WriteFailed (rec_config broken_tcp) (B "!1PWR01" ++ [CR]) OSError]).
Proof.
  apply (@send_other_error_not_retried (B "!1PWR01") (B "!1PWR01" ++ [CR])
           broken_tcp OSError []); try reflexivity.
  discriminate.
Defined.

(** X11: when the object is not connected and the connect attempt
    fails, [send_message_to_receiver] ends with the connect's exception
    and attempts no write. *)
Theorem send_connect_failure (message : bytes) (c : conn) (e : exn) :
  connected c = false ->
  port_open c = false ->
  next_outcome (connect_env c) = Some e ->
  exists c' ev,
    send_message_to_receiver message c = (Raise e, c', ev)
    /\ write_attempts ev = []
    /\ connected c' = false
    /\ write_env c' = write_env c.
Proof.
  intros Hc Hp He. destruct c as [[m i p sp] cn sk sr ce we ib].
  unfold send_message_to_receiver.
  cbn [connected] in *. subst cn.
  destruct ce as [|[e'|] ce]; try discriminate He. injection He as ->.
  destruct m, sk as [[]|], sr as [[|]|]; try discriminate Hp;
    run; do 2 eexists; repeat split; reflexivity.
Qed.

Lemma send_connect_failure_witness :
  exists c' ev,
    send_message_to_receiver (B "!1PWR01") (fresh_tcp [Some OSError])
    = (Raise OSError, c', ev)
    /\ write_attempts ev = []
    /\ connected c' = false
    /\ write_env c' = [].
Proof.
  apply (@send_connect_failure (B "!1PWR01") (fresh_tcp [Some OSError])
           OSError); reflexivity.
Defined.

(** ** The listener: connecting *)

Section ListenBackoff.

Variable S : Type.
Variable message_callback :
  option (option bytes -> S -> result unit * S * list event).

(** A turn of the loop on an unconnected object whose connect attempt
    fails. *)
Lemma listen_step_connect_fails (c : conn) (s : S) (e : exn)
  (rest : list (option exn)) :
  connected c = false ->
  port_open c = false ->
  connect_env c = Some e :: rest ->
  exists c' ev,
    listen_step message_callback c s = (Ok tt, c', s, ev)
    /\ io_events ev = [ConnectFailed (rec_config c) e; Sleep 1000]
    /\ connected c' = false /\ port_open c' = false
    /\ rec_config c' = rec_config c
    /\ connect_env c' = rest
    /\ inbox c' = inbox c /\ write_env c' = write_env c.
Proof.
  intros Hc Hp He. destruct c as [[m i p sp] cn sk sr ce we ib].
  cbn [connected connect_env] in *. subst cn ce. unfold listen_step.
  destruct m, sk as [[]|], sr as [[|]|]; try discriminate Hp;
    run; do 2 eexists; repeat split; reflexivity.
Qed.

(** X12: while the receiver cannot be reached, [listen_forever] keeps
    going: each turn makes one connect attempt and sleeps one second
    after its failure, whatever the exception; it neither reads nor
    writes nor calls the callback, and the loop is not left. *)
Theorem listen_backoff (es : list exn) : forall (c : conn) (s : S)
  (rest : list (option exn)),
  connected c = false ->
  port_open c = false ->
  connect_env c = map Some es ++ rest ->
  exists c' ev,
    listen_turns message_callback (length es) c s = (Ok tt, c', s, ev)
    /\ io_events ev
       = flat_map (fun e => [ConnectFailed (rec_config c) e; Sleep 1000]) es
    /\ connected c' = false
    /\ connect_env c' = rest
    /\ inbox c' = inbox c /\ write_env c' = write_env c.
Proof.
  induction es as [|e es IH]; intros c s rest Hc Hp He.
  - cbn in *. exists c, []. repeat split; auto.
  - cbn [map app] in He.
    destruct (@listen_step_connect_fails c s e _ Hc Hp He)
      as (c1 & ev1 & Hs & Hio & Hc1 & Hp1 & Hrc & He1 & Hi1 & Hw1).
    destruct (IH c1 s rest Hc1 Hp1 He1)
      as (c' & ev & Ht & Hio' & Hc' & He' & Hi' & Hw').
    exists c', (ev1 ++ ev). cbn [length listen_turns]. rewrite Hs, Ht.
    repeat split; try congruence.
    unfold io_events in *. rewrite filter_app, Hio, Hio', Hrc. reflexivity.
Qed.

End ListenBackoff.

Lemma listen_backoff_witness :
  exists c' ev,
    listen_turns (S := unit) None 2
      (fresh_tcp [Some OSError; Some ConnectionResetError; None]) tt
    = (Ok tt, c', tt, ev)
    /\ io_events ev
       = [ConnectFailed
            (rec_config (fresh_tcp [Some OSError; Some ConnectionResetError; None]))
            OSError;
          Sleep 1000;
          ConnectFailed
            (rec_config (fresh_tcp [Some OSError; Some ConnectionResetError; None]))
            ConnectionResetError;
          Sleep 1000]
    /\ connected c' = false
    /\ connect_env c' = [None]
    /\ inbox c' = [] /\ write_env c' = [].
Proof.
  apply (@listen_backoff unit None [OSError; ConnectionResetError]
           (fresh_tcp [Some OSError; Some ConnectionResetError; None]) tt
           [None]); reflexivity.
Defined.

(** ** The listener: reading and delivering *)

Lemma check_byte_pending (c : conn) (b : byte) (k : list rd) :
  handle_open c = true ->
  inbox c = Byte b :: k ->
  check_for_message c = (Ok true, c, []).
Proof.
  intros Ho Hi. destruct c as [[m i p sp] cn sk sr ce we ib].
  cbn [inbox] in Hi. subst ib.
  destruct m, sk as [[]|], sr as [[|]|]; try discriminate Ho; reflexivity.
Qed.

(** With a complete message pending on a delimited transport, the poll
    finds input and the read returns the message. *)
Lemma delimited_message_pending (message : bytes) (t : byte) (c : conn)
  (k : list rd) :
  delimited_reader c ->
  In MARK message ->
  Forall (fun b => is_terminator b = false) message ->
  is_terminator t = true ->
  inbox c = map Byte (message ++ [t]) ++ k ->
  check_for_message c = (Ok true, c, [])
  /\ get_message c
     = (Ok (Some message), set_inbox k c,
        [Log DEBUG "total received %s, terminated %s"]).
Proof.
  intros Hr Hin Hnt Ht Hi. split.
  - destruct message as [|b message]; [contradiction|].
    apply (@check_byte_pending c b (map Byte (message ++ [t]) ++ k));
      [apply Hr|exact Hi].
  - now apply delimited_read_complete with (t := t).
Qed.

Section ListenReads.

Variable S : Type.
Variable message_callback :
  option (option bytes -> S -> result unit * S * list event).

(** A turn of the loop on a connected object with input pending. *)
Lemma listen_step_reads (c c2 : conn) (s : S) (r : result (option bytes))
  (ev2 : list event) :
  connected c = true ->
  check_for_message c = (Ok true, c, []) ->
  get_message c = (r, c2, ev2) ->
  listen_step message_callback c s
  = match r with
    | Raise e =>
        if is_ConnectionResetError e then
          match _disconnect c2 with
          | (r3, c3, ev3) => (r3, c3, s, ev2 ++ ev3)
          end
        else (Raise e, c2, s, ev2)
    | Ok message =>
        match message_callback with
        | None => (Ok tt, c2, s, ev2)
        | Some callback =>
            match callback message s with
            | (Ok _, s', ev3) => (Ok tt, c2, s', ev2 ++ ev3)
            | (Raise e, s', ev3) =>
                if is_ConnectionResetError e then
                  match _disconnect c2 with
                  | (r4, c4, ev4) => (r4, c4, s', (ev2 ++ ev3) ++ ev4)
                  end
                else (Raise e, c2, s', ev2 ++ ev3)
            end
        end
    end.
Proof.
  intros Hc Hk Hg. unfold listen_step, listen_body.
  rewrite Hc. cbn [negb]. unfold ret at 1. rewrite Hk, Hg.
  destruct r as [message|e]; cbn [app].
  - destruct message_callback as [callback|]; [|reflexivity].
    destruct (callback message s) as [[[u|e] s'] ev3]; [reflexivity|].
    destruct (is_ConnectionResetError e); [|reflexivity].
    now destruct (_disconnect c2) as [[r4 c4] ev4].
  - destruct (is_ConnectionResetError e); [|reflexivity].
    now destruct (_disconnect c2) as [[r4 c4] ev4].
Qed.

(** X13: a turn of [listen_forever] on a connected delimited connection
    with a complete message pending consumes exactly the message and its
    terminator and hands the message to the callback, once.  Without a
    callback the message is dropped.  An exception of the callback is
    the listener's: a reset is answered by [_disconnect] of this
    connection, whose outcome is the turn's; any other exception leaves
    the loop with the connection as it is. *)
Theorem listen_delivers_message (message : bytes) (t : byte) (c : conn)
  (s : S) (k : list rd) :
  connected c = true ->
  delimited_reader c ->
  In MARK message ->
  Forall (fun b => is_terminator b = false) message ->
  is_terminator t = true ->
  inbox c = map Byte (message ++ [t]) ++ k ->
  listen_step message_callback c s
  = match message_callback with
    | None =>
        (Ok tt, set_inbox k c, s,
         [Log DEBUG "total received %s, terminated %s"])
    | Some callback =>
        match callback (Some message) s with
        | (Ok _, s', ev) =>
            (Ok tt, set_inbox k c, s',
             Log DEBUG "total received %s, terminated %s" :: ev)
        | (Raise e, s', ev) =>
            if is_ConnectionResetError e then
              match _disconnect (set_inbox k c) with
              | (r', c', ev') =>
                  (r', c', s',
                   (Log DEBUG "total received %s, terminated %s" :: ev) ++ ev')
              end
            else
              (Raise e, set_inbox k c, s',
               Log DEBUG "total received %s, terminated %s" :: ev)
        end
    end.
Proof.
  intros Hc Hr Hin Hnt Ht Hi.
  destruct (@delimited_message_pending message t c k Hr Hin Hnt Ht Hi)
    as [Hk Hg].
  rewrite (@listen_step_reads c _ s _ _ Hc Hk Hg).
  reflexivity.
Qed.

End ListenReads.

Lemma listen_delivers_message_witness :
  listen_step (S := unit) None (tcp_listener (map Byte (B "!1MVL20" ++ [LF]) ++ [Quiet])) tt
  = (Ok tt,
     set_inbox [Quiet] (tcp_listener (map Byte (B "!1MVL20" ++ [LF]) ++ [Quiet])),
     tt, [Log DEBUG "total received %s, terminated %s"]).
Proof.
  apply (@listen_delivers_message unit None (B "!1MVL20") LF
           (tcp_listener (map Byte (B "!1MVL20" ++ [LF]) ++ [Quiet])) tt [Quiet]).
  - reflexivity.
  - split; [discriminate|reflexivity].
  - now left.
  - repeat constructor.
  - reflexivity.
  - reflexivity.
Defined.

(** ** The primary's listener and the relay *)

Lemma power_message_has_marker (message : bytes) :
  firstn 5 message = B "!1PWR" -> In MARK message.
Proof.
  intros H. destruct message as [|b message]; [discriminate|].
  injection H as -> _. now left.
Qed.

(** X14: end to end on a delimited primary.  A power message arriving
    on the primary is consumed and written once to every secondary, in
    list order, each write shaped for the secondary's own transport,
    when no send raises; the turn returns and the primary stays
    connected. *)
Theorem primary_relays_power_message (message : bytes) (t : byte)
  (primary : conn) (secondaries : list conn) (k : list rd) :
  connected primary = true ->
  delimited_reader primary ->
  firstn 5 message = B "!1PWR" ->
  Forall (fun b => is_terminator b = false) message ->
  is_terminator t = true ->
  inbox primary = map Byte (message ++ [t]) ++ k ->
  Forall (fun s => send_result message s = Ok tt) secondaries ->
  exists ev,
    ReceiverSyncService.primary_listen_step primary secondaries
    = (Ok tt, set_inbox k primary, map (sent message) secondaries, ev)
    /\ Forall2 (written message) secondaries (writes ev).
Proof.
  intros Hc Hr Hp Hnt Ht Hi Hall.
  destruct (@delimited_message_pending message t primary k Hr
              (power_message_has_marker _ Hp) Hnt Ht Hi) as [Hk Hg].
  unfold ReceiverSyncService.primary_listen_step.
  rewrite (@listen_step_reads _ _ primary _ secondaries _ _ Hc Hk Hg).
  unfold ReceiverSyncService.relay_message_to_secondary.
  destruct (power_message_dec message) as [[-> _]|[_ Hn]]; [|contradiction].
  rewrite (@relay_loop_all_ok _ _ Hall).
  eexists. split; [reflexivity|].
  cbn [app writes filter is_write]. now apply writes_of_sends.
Qed.

Lemma primary_relays_power_message_witness :
  exists ev,
    ReceiverSyncService.primary_listen_step tcp_primary [sec_a; sec_c]
    = (Ok tt, set_inbox [] tcp_primary,
       map (sent (B "!1PWR01")) [sec_a; sec_c], ev)
    /\ Forall2 (written (B "!1PWR01")) [sec_a; sec_c] (writes ev).
Proof.
  apply (@primary_relays_power_message (B "!1PWR01") CR tcp_primary
           [sec_a; sec_c] []).
  - reflexivity.
  - split; [discriminate|reflexivity].
  - reflexivity.
  - repeat constructor.
  - reflexivity.
  - reflexivity.
  - repeat constructor.
Defined.

(** X15: a message that is not a power message is consumed on the
    primary and goes no further: no secondary is written to, connected
    to or changed. *)
Theorem primary_ignores_other_messages (message : bytes) (t : byte)
  (primary : conn) (secondaries : list conn) (k : list rd) :
  connected primary = true ->
  delimited_reader primary ->
  firstn 5 message <> B "!1PWR" ->
  In MARK message ->
  Forall (fun b => is_terminator b = false) message ->
  is_terminator t = true ->
  inbox primary = map Byte (message ++ [t]) ++ k ->
  ReceiverSyncService.primary_listen_step primary secondaries
  = (Ok tt, set_inbox k primary, secondaries,
     [Log DEBUG "total received %s, terminated %s"]).
Proof.
  intros Hc Hr Hp Hin Hnt Ht Hi.
  destruct (@delimited_message_pending message t primary k Hr Hin Hnt Ht Hi)
    as [Hk Hg].
  unfold ReceiverSyncService.primary_listen_step.
  rewrite (@listen_step_reads _ _ primary _ secondaries _ _ Hc Hk Hg).
  unfold ReceiverSyncService.relay_message_to_secondary.
  destruct (power_message_dec message) as [[_ Hy]|[-> _]]; [contradiction|].
  reflexivity.
Qed.

Lemma primary_ignores_other_messages_witness :
  ReceiverSyncService.primary_listen_step
    (tcp_reader (B "!1MVL20" ++ [CR])) [sec_a; sec_b]
  = (Ok tt, set_inbox [] (tcp_reader (B "!1MVL20" ++ [CR])), [sec_a; sec_b],
     [Log DEBUG "total received %s, terminated %s"]).
Proof.
  apply (@primary_ignores_other_messages (B "!1MVL20") CR
           (tcp_reader (B "!1MVL20" ++ [CR])) [sec_a; sec_b] []).
  - reflexivity.
  - split; [discriminate|reflexivity].
  - discriminate.
  - now left.
  - repeat constructor.
  - reflexivity.
  - reflexivity.
Defined.




Lemma socket_readable (c : conn) (x : rd) (k : list rd) :
  mode (rec_config c) <> Serial ->
  sock c <> None ->
  inbox c = x :: k ->
  x <> Quiet ->
  check_for_message c = (Ok true, c, []).
Proof.
  intros Hm Hs Hi Hx. destruct c as [[m i p sp] cn sk sr ce we ib].
  cbn [inbox] in Hi. subst ib.
  destruct m, sk as [[]|], x; cbn in *; congruence.
Qed.

(** X17: the same on a binary-transport primary.  A power message
    framed by [build_eiscp_packet] and arriving on an eISCP primary is
    unframed and written once to every secondary, each write framed
    anew for the secondary's own transport. *)
Theorem eiscp_primary_relays_power_message (message packet : bytes)
  (primary : conn) (secondaries : list conn) (k : list rd) :
  mode (rec_config primary) = EISCP ->
  connected primary = true ->
  sock primary <> None ->
  Eiscp.build_eiscp_packet message = Some packet ->
  firstn 5 message = B "!1PWR" ->
  endswith_terminator message = false ->
  inbox primary = map Byte packet ++ k ->
  Forall (fun s => send_result message s = Ok tt) secondaries ->
  exists ev,
    ReceiverSyncService.primary_listen_step primary secondaries
    = (Ok tt, set_inbox k primary, map (sent message) secondaries, ev)
    /\ Forall2 (written message) secondaries (writes ev).
Proof.
  intros Hm Hc Hs Hb Hp He Hi Hall.
  assert (Hk : check_for_message primary = (Ok true, primary, [])).
  { destruct (built_packet_shape _ Hb) as (d1 & d2 & d3 & d4 & Hpk & _).
    rewrite Hpk in Hi. cbn [map app] in Hi.
    eapply socket_readable;
      [rewrite Hm; discriminate | exact Hs | exact Hi | discriminate]. }
  assert (H2 : startswith message (B "!1") = true).
  { destruct message as [|b1 [|b2 message]]; try discriminate Hp.
    injection Hp as -> -> _. reflexivity. }
  assert (Hg : get_message primary
               = (Ok (Some message), set_inbox k primary,
                  [Log DEBUG "request message was %s"])).
  { unfold get_message. rewrite Hm.
    rewrite (@eiscp_reads_packet message packet primary k Hb Hs Hi).
    rewrite (strip_terminators_fixed _ He), H2. reflexivity. }
  unfold ReceiverSyncService.primary_listen_step.
  rewrite (@listen_step_reads _ _ primary _ secondaries _ _ Hc Hk Hg).
  unfold ReceiverSyncService.relay_message_to_secondary.
  destruct (power_message_dec message) as [[-> _]|[_ Hn]]; [|contradiction].
  rewrite (@relay_loop_all_ok _ _ Hall).
  eexists. split; [reflexivity|].
  cbn [app writes filter is_write]. now apply writes_of_sends.
Qed.

Lemma eiscp_primary_relays_power_message_witness :
  exists ev,
    ReceiverSyncService.primary_listen_step
      (eiscp_reader (map Byte power_on_packet)) [sec_c; sec_a]
    = (Ok tt, set_inbox [] (eiscp_reader (map Byte power_on_packet)),
       map (sent (B "!1PWR01")) [sec_c; sec_a], ev)
    /\ Forall2 (written (B "!1PWR01")) [sec_c; sec_a] (writes ev).
Proof.
  apply (@eiscp_primary_relays_power_message (B "!1PWR01") power_on_packet
           (eiscp_reader (map Byte power_on_packet)) [sec_c; sec_a] []).
  - reflexivity.
  - reflexivity.
  - discriminate.
  - reflexivity.
  - reflexivity.
  - reflexivity.
  - reflexivity.
  - repeat constructor.
Defined.

(** ** The listener when the peer goes away *)


Lemma header_loop_skips (junk : bytes) : forall c k,
  sock c <> None ->
  Forall (fun b => b <> LETTER_I) junk ->
  inbox c = map Byte junk ++ k ->
  EiscpConnection.header_loop c
  = EiscpConnection.header_loop (set_inbox k c).
Proof.
  induction junk as [|b junk IH]; intros c k Hs Hj Hi; cbn [map app] in Hi.
  - rewrite <- Hi. now rewrite set_inbox_same.
  - inversion Hj as [|? ? Hb Hj']; subst.
    rewrite (@header_loop_byte _ _ _ Hs Hi).
    destruct (Byte.eqb b LETTER_I) eqn:E.
    + apply Byte.byte_dec_bl in E. contradiction.
    + now rewrite (IH (set_inbox (map Byte junk ++ k) c) k).
Qed.

Lemma eiscp_read_peer_closed (junk : bytes) (c : conn) (k : list rd) :
  mode (rec_config c) = EISCP ->
  sock c <> None ->
  Forall (fun b => b <> LETTER_I) junk ->
  inbox c = map Byte junk ++ Eof :: k ->
  get_message c
  = (Raise ConnectionClosedException, set_inbox (Eof :: k) c, []).
Proof.
  intros Hm Hs Hj Hi. unfold get_message. rewrite Hm.
  unfold EiscpConnection.get_message. unfold bind at 1.
  rewrite (@header_loop_skips junk c _ Hs Hj Hi), header_loop_body.
  destruct c as [rc cn [[]|] sr ce we ib]; [|cbn in Hs; congruence].
  reflexivity.
Qed.

Lemma socket_read_reset (c : conn) (k : list rd) :
  mode (rec_config c) <> Serial ->
  sock c <> None ->
  inbox c = Reset :: k ->
  get_message c = (Raise ConnectionResetError, c, []).
Proof.
  intros Hm Hs Hi. destruct c as [[m i p sp] cn [[]|] sr ce we ib];
    [|cbn in Hs; congruence].
  cbn [inbox] in Hi. subst ib. unfold get_message.
  destruct m; cbn [mode rec_config] in *; [| |congruence].
  - unfold EiscpConnection.get_message. unfold bind at 1.
    rewrite header_loop_body. reflexivity.
  - unfold base_get_message. unfold bind at 1.
    rewrite get_message_loop_body. reflexivity.
Qed.

Section ListenErrors.

Variable S : Type.
Variable message_callback :
  option (option bytes -> S -> result unit * S * list event).


(** X19: the binary transport treats the same event differently.  When
    the peer of an [EiscpConnection] closes it while the reader looks
    for the start of a header, [get_message] raises
    [ConnectionClosedException], which [listen_forever] does not catch:
    the listener ends, with the object still marked connected and its
    socket not closed. *)
Theorem eiscp_peer_closed_ends_listener (junk : bytes) (c : conn) (s : S)
  (k : list rd) :
  mode (rec_config c) = EISCP ->
  connected c = true ->
  sock c <> None ->
  Forall (fun b => b <> LETTER_I) junk ->
  inbox c = map Byte junk ++ Eof :: k ->
  listen_step message_callback c s
  = (Raise ConnectionClosedException, set_inbox (Eof :: k) c, s, []).
Proof.
  intros Hm Hc Hs Hj Hi.
  assert (Hk : check_for_message c = (Ok true, c, [])).
  { destruct junk as [|b junk]; cbn [map app] in Hi;
      (eapply socket_readable; [rewrite Hm; discriminate | exact Hs
                               | exact Hi | discriminate]). }
  rewrite (@listen_step_reads _ message_callback c _ s _ _ Hc Hk
             (@eiscp_read_peer_closed junk c k Hm Hs Hj Hi)).
  reflexivity.
Qed.

(** X20: a reset while reading, on either socket transport, ends the
    listener.  [recv] raises [ConnectionResetError], [listen_forever]
    answers with [_disconnect], and the [shutdown] of the reset socket
    raises [OSError], which nothing catches: [listen_forever] ends with
    it, the object still marked connected and its socket not closed;
    nothing is logged and the callback is not called. *)
Theorem socket_reset_ends_listener (c : conn) (s : S) (k : list rd) :
  mode (rec_config c) <> Serial ->
  connected c = true ->
  sock c <> None ->
  inbox c = Reset :: k ->
  listen_step message_callback c s = (Raise OSError, c, s, []).
Proof.
  intros Hm Hc Hs Hi.
  assert (Hk : check_for_message c = (Ok true, c, [])).
  { eapply socket_readable; [exact Hm | exact Hs | exact Hi | discriminate]. }
  rewrite (@listen_step_reads _ message_callback c _ s _ _ Hc Hk
             (@socket_read_reset c k Hm Hs Hi)).
  cbn [is_ConnectionResetError app].
  rewrite (@tcp_disconnect_on_reset c Hm Hc Hs);
    [reflexivity|]. unfold reset_pending. now rewrite Hi.
Qed.

End ListenErrors.


Lemma eiscp_peer_closed_ends_listener_witness :
  listen_step (S := unit) None (eiscp_reader (map Byte (B "!1") ++ [Eof])) tt
  = (Raise ConnectionClosedException,
     set_inbox [Eof] (eiscp_reader (map Byte (B "!1") ++ [Eof])), tt, []).
Proof.
  apply (@eiscp_peer_closed_ends_listener unit None (B "!1")
           (eiscp_reader (map Byte (B "!1") ++ [Eof])) tt []).
  - reflexivity.
  - reflexivity.
  - discriminate.
  - repeat constructor; discriminate.
  - reflexivity.
Defined.

Lemma socket_reset_ends_listener_witness :
  listen_step (S := unit) None (eiscp_reader [Reset]) tt
  = (Raise OSError, eiscp_reader [Reset], tt, []).
Proof.
  apply (@socket_reset_ends_listener unit None (eiscp_reader [Reset]) tt []).
  - discriminate.
  - reflexivity.
  - discriminate.
  - reflexivity.
Defined.

(** ** Leaving the service: [__exit__] *)







(** ** Configuration and the choice of the class *)

Lemma is_string_inj (v : json) (a b : string) :
  is_string v a = true -> is_string v b = true -> a = b.
Proof.
  destruct v; try discriminate. cbn. intros Ha Hb.
  apply String.eqb_eq in Ha, Hb. congruence.
Qed.

(** X22: [validate_receiver] accepts a receiver's configuration exactly
    when [ReceiverConnection(...)] picks a class for it and the
    configuration holds every key that class's [_connect_to_receiver]
    subscripts it with: what is validated constructs and connects
    without [KeyError] or [ValueError], and nothing else is let
    through. *)
Theorem validated_config_constructs (rec_config : dict) :
  Config.validate_receiver rec_config = Config.Valid
  <-> exists cls,
        ReceiverConnection.__new__ rec_config
        = ReceiverConnection.Object cls
        /\ Forall (fun key => has_key key rec_config = true)
             (ReceiverConnection.keys_read cls).
Proof.
  unfold Config.validate_receiver, ReceiverConnection.__new__.
  destruct (dict_get "mode" rec_config) as [mode|].
  2: { split; [discriminate|]. intros (cls & H & _). discriminate H. }
  destruct (is_string mode "EISCP") eqn:E1;
    destruct (is_string mode "TCP") eqn:E2;
    destruct (is_string mode "Serial") eqn:E3;
    try (pose proof (@is_string_inj _ _ _ E1 E2); discriminate);
    try (pose proof (@is_string_inj _ _ _ E1 E3); discriminate);
    try (pose proof (@is_string_inj _ _ _ E2 E3); discriminate).
  - destruct (has_key "ip" rec_config) eqn:K; cbn [negb]; split.
    + intros _. exists EISCP. split; [reflexivity|]. now repeat constructor.
    + reflexivity.
    + discriminate.
    + intros (cls & [= <-] & H). inversion H; subst. congruence.
  - destruct (has_key "ip" rec_config) eqn:K; cbn [negb];
      [destruct (has_key "tcp_port" rec_config) eqn:K2; cbn [negb]|]; split.
    + intros _. exists TCP. split; [reflexivity|]. now repeat constructor.
    + reflexivity.
    + discriminate.
    + intros (cls & [= <-] & H). inversion H as [|? ? _ H']; subst.
      inversion H'; subst. congruence.
    + discriminate.
    + intros (cls & [= <-] & H). inversion H; subst. congruence.
  - destruct (has_key "serial_port" rec_config) eqn:K; cbn [negb]; split.
    + intros _. exists Serial. split; [reflexivity|]. now repeat constructor.
    + reflexivity.
    + discriminate.
    + intros (cls & [= <-] & H). inversion H; subst. congruence.
  - split; [discriminate|]. intros (cls & H & _). discriminate H.
Qed.

Lemma validated_config_constructs_witness :
  exists cls,
    ReceiverConnection.__new__
      [("mode"%string, JString "TCP"); ("ip"%string, JString "10.0.0.2");
       ("tcp_port"%string, JNumber 8102)]
    = ReceiverConnection.Object cls
    /\ Forall
         (fun key =>
            has_key key
              [("mode"%string, JString "TCP"); ("ip"%string, JString "10.0.0.2");
               ("tcp_port"%string, JNumber 8102)] = true)
         (ReceiverConnection.keys_read cls).
Proof.
  apply (proj1 (@validated_config_constructs
                  [("mode"%string, JString "TCP");
                   ("ip"%string, JString "10.0.0.2");
                   ("tcp_port"%string, JNumber 8102)])).
  reflexivity.
Defined.

(** ** The main loop *)

Lemma send_steady (message wire : bytes) (c : conn) :
  steady c ->
  wire_of (mode (rec_config c)) message = Some wire ->
  send_message_to_receiver message c = (Ok tt, c, [Write (rec_config c) wire]).
Proof.
  intros (Hc & Ho & Hw) Hwire. destruct c as [[m i p sp] cn sk sr ce we ib].
  cbn [connected write_env] in *. subst cn we.
  unfold send_message_to_receiver.
  destruct m, sk as [[]|], sr as [[|]|];
    cbn [handle_open wire_of mode rec_config ser sock] in *;
    try discriminate Ho; try injection Hwire as <-;
    run; rewrite ?Hwire; run; reflexivity.
Qed.

(** X23: the loop of [main_loop] sleeps a tenth of a second on every
    turn and asks the primary for its power state on every hundredth
    turn and on no other: after [n] turns, started with the counter at
    [count], the counter is [(count + n) mod 100] and the query has
    been written [(count + n) / 100] times, as long as the primary's
    connection holds. *)
Theorem main_loop_probes_every_hundredth_turn (n : nat) :
  forall (count : Z) (c : conn) (wire : bytes),
  steady c ->
  wire_of (mode (rec_config c)) (B "!1PWRQSTN") = Some wire ->
  0 <= count < 100 ->
  exists ev,
    Main.main_turns n count c = (Ok ((count + Z.of_nat n) mod 100), c, ev)
    /\ writes ev
       = repeat (Write (rec_config c) wire)
           (Z.to_nat ((count + Z.of_nat n) / 100))
    /\ filter is_sleep ev = repeat (Sleep 100) n.
Proof.
  induction n as [|n IH]; intros count c wire Hs Hw Hc.
  - exists []. cbn [Main.main_turns]. unfold ret.
    rewrite Z.add_0_r, Z.mod_small, Z.div_small by lia. repeat split.
  - cbn [Main.main_turns]. unfold bind at 1. unfold Main.main_turn.
    unfold bind at 1. unfold sleep, emit.
    destruct (count + 1 =? 100) eqn:E.
    + apply Z.eqb_eq in E.
      unfold bind at 1. unfold ReceiverSyncService.send_pwr_question_to_primary.
      unfold bind at 1. unfold emit. rewrite (@send_steady _ _ _ Hs Hw).
      unfold ret at 1.
      destruct (IH 0 c wire Hs Hw ltac:(lia)) as (ev & He & Hwr & Hsl).
      rewrite He. eexists. split; [|split].
      * f_equal. f_equal. f_equal.
        replace (count + Z.of_nat (S n)) with (Z.of_nat n + 1 * 100) by lia.
        now rewrite Z.mod_add by lia.
      * cbn [app writes filter is_write]. fold (writes ev). rewrite Hwr.
        replace (count + Z.of_nat (S n)) with (Z.of_nat n + 1 * 100) by lia.
        rewrite Z.div_add by lia. cbn [Z.add].
        replace (Z.to_nat (Z.of_nat n / 100 + 1))
          with (S (Z.to_nat (Z.of_nat n / 100)))
          by (pose proof (Z.div_pos (Z.of_nat n) 100); lia).
        reflexivity.
      * cbn [app filter is_sleep]. now rewrite Hsl.
    + apply Z.eqb_neq in E. unfold ret at 1.
      destruct (IH (count + 1) c wire Hs Hw ltac:(lia)) as (ev & He & Hwr & Hsl).
      rewrite He. eexists. split; [|split].
      * f_equal. f_equal. f_equal. f_equal. lia.
      * cbn [app writes filter is_write]. fold (writes ev). rewrite Hwr.
        f_equal. f_equal. f_equal. lia.
      * cbn [app filter is_sleep]. now rewrite Hsl.
Qed.

Lemma main_loop_probes_every_hundredth_turn_witness :
  exists ev,
    Main.main_turns 250 0 sec_a = (Ok 50, sec_a, ev)
    /\ writes ev
       = repeat (Write (rec_config sec_a) (B "!1PWRQSTN" ++ [CR])) 2
    /\ filter is_sleep ev = repeat (Sleep 100) 250.
Proof.
  apply (@main_loop_probes_every_hundredth_turn 250 0 sec_a
           (B "!1PWRQSTN" ++ [CR])).
  - repeat split.
  - reflexivity.
  - lia.
Defined.

(** ** Reading touches nothing but the input *)

Lemma only_reads_refl (c : conn) : only_reads c c [].
Proof.
  split; [now destruct c|]. split; [now exists []|reflexivity].
Qed.

Lemma only_reads_trans (c c1 c2 : conn) (ev1 ev2 : list event) :
  only_reads c c1 ev1 -> only_reads c1 c2 ev2 -> only_reads c c2 (ev1 ++ ev2).
Proof.
  intros (H1 & [k1 Hk1] & Hq1) (H2 & [k2 Hk2] & Hq2). split; [|split].
  - rewrite H2. rewrite H1 at 1. reflexivity.
  - exists (k1 ++ k2). now rewrite Hk1, Hk2, app_assoc.
  - now rewrite forallb_app, Hq1, Hq2.
Qed.

Lemma reads_only_ret {A} (a : A) : reads_only (ret a).
Proof. intros c r c' ev [= <- <- <-]. apply only_reads_refl. Qed.

Lemma reads_only_raise {A} (e : exn) : reads_only (@raise A e).
Proof. intros c r c' ev [= <- <- <-]. apply only_reads_refl. Qed.

Lemma reads_only_log (l : level) (text : string) : reads_only (emit (Log l text)).
Proof.
  intros c r c' ev [= <- <- <-].
  split; [now destruct c|]. split; [now exists []|reflexivity].
Qed.

Lemma reads_only_bind {A R} (m : M A) (f : A -> M R) :
  reads_only m -> (forall a, reads_only (f a)) -> reads_only (bind m f).
Proof.
  intros Hm Hf c r c' ev. unfold bind.
  destruct (m c) as [[[a|e] c1] ev1] eqn:E1.
  - destruct (f a c1) as [[r2 c2] ev2] eqn:E2. intros [= <- <- <-].
    eapply only_reads_trans; [eapply Hm|eapply Hf]; eassumption.
  - intros [= <- <- <-]. eapply Hm; eassumption.
Qed.

Ltac read_cases :=
  intros c r c' ev; destruct c as [rc cn sk sr ce we ib];
  cbv beta iota zeta delta
    [select_readable recv_1 in_waiting_positive ser_read_1 poll_sleep
     sock ser inbox set_inbox rec_config connected connect_env write_env];
  repeat match goal with
         | |- context [match ?x with _ => _ end] => destruct x
         end;
  intros [= <- <- <-];
  (split; [reflexivity|]; split; [|reflexivity]);
  first [now exists [] | now eexists [_]].

Lemma reads_only_select : reads_only select_readable.
Proof. read_cases. Qed.

Lemma reads_only_recv : reads_only recv_1.
Proof. read_cases. Qed.

Lemma reads_only_in_waiting : reads_only in_waiting_positive.
Proof. read_cases. Qed.

Lemma reads_only_ser_read : reads_only ser_read_1.
Proof. read_cases. Qed.

Lemma reads_only_poll_sleep : reads_only poll_sleep.
Proof. read_cases. Qed.

Create HintDb reads.

#[local] Hint Resolve reads_only_ret reads_only_raise reads_only_log
  reads_only_select reads_only_recv reads_only_in_waiting reads_only_ser_read
  reads_only_poll_sleep : reads.

Ltac reads :=
  repeat first
    [ apply reads_only_bind; [|intros ?]
    | solve [auto with reads]
    | match goal with
      | |- reads_only (match ?x with _ => _ end) => destruct x
      | |- reads_only (if ?x then _ else _) => destruct x
      end ].

Lemma reads_only_check : reads_only check_for_message.
Proof.
  intros c. unfold check_for_message. destruct (mode (rec_config c)).
  - apply reads_only_select.
  - apply reads_only_select.
  - revert c. change (reads_only IscpSerialConnection.check_for_message).
    unfold IscpSerialConnection.check_for_message. reads.
Qed.

Lemma reads_only_get_one_byte : reads_only _get_one_byte.
Proof.
  intros c. unfold _get_one_byte. destruct (mode (rec_config c)); revert c.
  - change (reads_only EiscpConnection._get_one_byte).
    unfold EiscpConnection._get_one_byte. reads.
  - change (reads_only IscpTcpConnection._get_one_byte).
    unfold IscpTcpConnection._get_one_byte. reads.
  - change (reads_only IscpSerialConnection._get_one_byte).
    unfold IscpSerialConnection._get_one_byte. reads.
Qed.

Lemma reads_only_grab_loop (n : nat) :
  forall data, reads_only (EiscpConnection.grab_loop n data).
Proof.
  induction n as [|n IH]; intros data; cbn [EiscpConnection.grab_loop].
  - reads.
  - apply reads_only_bind; [apply reads_only_select|].
    intros [|]; [|reads].
    apply reads_only_bind; [apply reads_only_recv|]. intros d. apply IH.
Qed.

Lemma reads_only_grab (n : Z) : reads_only (EiscpConnection._tcp_grab_bytes n).
Proof. apply reads_only_grab_loop. Qed.

Lemma only_reads_after (c c1 c2 : conn) (ev1 ev2 : list event) {A}
  (r : result A) (o : outcome A) :
  only_reads c c1 ev1 ->
  (forall r' c' ev', o = (r', c', ev') -> only_reads c1 c' ev') ->
  after ev1 o = (r, c2, ev2) ->
  only_reads c c2 ev2.
Proof.
  intros H1 H2. destruct o as [[r' c'] ev']. cbn. intros [= <- <- <-].
  eapply only_reads_trans; [exact H1|]. now eapply H2.
Qed.

Lemma reads_only_header_loop : reads_only EiscpConnection.header_loop.
Proof.
  assert (G : forall n c, (length (inbox c) <= n)%nat ->
              forall r c' ev, EiscpConnection.header_loop c = (r, c', ev) ->
              only_reads c c' ev).
  { induction n as [|n IH]; intros c Hn r c' ev; rewrite header_loop_body.
    all: destruct (EiscpConnection.check_for_message c)
           as [[[[|]|e] c1] ev1] eqn:Hk;
      pose proof (@reads_only_select _ _ _ _ Hk) as F1;
      try (intros [= <- <- <-]; exact F1).
    all: destruct (EiscpConnection._tcp_grab_bytes 1 c1)
           as [[[[[|b data]|]|e] c2] ev2] eqn:Hg;
      pose proof (@reads_only_grab 1 _ _ _ _ Hg) as F2;
      pose proof (only_reads_trans F1 F2) as F;
      try (intros [= <- <- <-]; exact F).
    all: destruct (bytes_eqb (b :: data) (B "I"));
      try (intros [= <- <- <-]; exact F).
    all: apply EiscpConnection.select_inbox in Hk;
      apply EiscpConnection.grab_one_inbox in Hg.
    - lia.
    - apply (only_reads_after F). apply IH. lia. }
  intros c. now apply (G (length (inbox c))).
Qed.

Lemma reads_only_message_loop (received_data : bytes) (found_message : bool) :
  reads_only (get_message_loop received_data found_message).
Proof.
  assert (G : forall n received_data found_message c,
              (length (inbox c) <= n)%nat ->
              forall r c' ev,
              get_message_loop received_data found_message c = (r, c', ev) ->
              only_reads c c' ev).
  { clear. induction n as [|n IH]; intros received_data found_message c Hn r c' ev;
      rewrite get_message_loop_body.
    all: destruct (check_for_message c) as [[[[|]|e] c1] ev1] eqn:Hk;
      pose proof (@reads_only_check _ _ _ _ Hk) as F1;
      try (intros [= <- <- <-]; exact F1).
    all: destruct (_get_one_byte c1) as [[[[[|b data]|]|e] c2] ev2] eqn:Hg;
      pose proof (@reads_only_get_one_byte _ _ _ _ Hg) as F2;
      pose proof (only_reads_trans F1 F2) as F;
      try (intros [= <- <- <-]; exact F).
    all: apply check_for_message_inbox in Hk; apply get_one_byte_inbox in Hg.
    all: try lia.
    destruct (in_terminators (b :: data)); [destruct found_message|];
      try (intros [= <- <- <-]; exact F);
      apply (only_reads_after F); apply IH; lia. }
  intros c. now apply (G (length (inbox c))).
Qed.

#[local] Hint Resolve reads_only_grab reads_only_header_loop
  reads_only_message_loop : reads.

Lemma reads_only_get_message : reads_only get_message.
Proof.
  intros c. unfold get_message. destruct (mode (rec_config c)); revert c.
  - change (reads_only EiscpConnection.get_message).
    unfold EiscpConnection.get_message. reads.
  - change (reads_only base_get_message). unfold base_get_message. reads.
  - change (reads_only base_get_message). unfold base_get_message. reads.
Qed.

(** X24: reading touches nothing but the input.  Whatever is pending and
    however the read ends, [get_message] of all three classes consumes
    a prefix of the pending input and changes nothing else of the
    object: not [connected], not its handle.  Meanwhile it only waits
    and logs: it writes nothing, opens nothing and closes nothing. *)
Theorem reading_only_consumes (c c' : conn) (r : result (option bytes))
  (ev : list event) :
  get_message c = (r, c', ev) ->
  c' = set_inbox (inbox c') c
  /\ (exists consumed, inbox c = consumed ++ inbox c')
  /\ forallb is_quiet ev = true.
Proof. apply reads_only_get_message. Qed.

Lemma reading_only_consumes_witness :
  tcp_listener [Quiet]
  = set_inbox (inbox (tcp_listener [Quiet]))
      (tcp_listener (map Byte (B "!1PWR01" ++ [CR]) ++ [Quiet]))
  /\ (exists consumed,
        inbox (tcp_listener (map Byte (B "!1PWR01" ++ [CR]) ++ [Quiet]))
        = consumed ++ inbox (tcp_listener [Quiet]))
  /\ forallb is_quiet [Log DEBUG "total received %s, terminated %s"] = true.
Proof.
  apply (@reading_only_consumes
           (tcp_listener (map Byte (B "!1PWR01" ++ [CR]) ++ [Quiet]))
           (tcp_listener [Quiet]) (Ok (Some (B "!1PWR01")))
           [Log DEBUG "total received %s, terminated %s"]).
  reflexivity.
Defined.

(** ** A listener without a callback never writes *)

Lemma quiet_no_write (ev : list event) :
  forallb is_quiet ev = true -> write_attempts ev = [].
Proof.
  induction ev as [|e ev IH]; [reflexivity|]. cbn [forallb].
  intros H. apply andb_prop in H as [He Hev].
  unfold write_attempts in *. cbn [filter]. rewrite (IH Hev).
  now destruct e.
Qed.

Lemma write_attempts_app (ev1 ev2 : list event) :
  write_attempts (ev1 ++ ev2) = write_attempts ev1 ++ write_attempts ev2.
Proof. apply filter_app. Qed.

Lemma connect_no_write (c : conn) :
  write_attempts (snd (_connect_to_receiver c)) = [].
Proof.
  destruct c as [[m i p sp] cn sk sr ce we ib].
  destruct m, sk as [[]|], sr as [[|]|], ce as [|[e|] ce]; reflexivity.
Qed.

Lemma disconnect_no_write (c : conn) :
  write_attempts (snd (_disconnect c)) = [].
Proof.
  destruct c as [[m i p sp] cn sk sr ce we ib].
  destruct m, cn, sk as [[]|], sr as [[|]|], ib as [|[b| | |] ib];
    reflexivity.
Qed.

Lemma listen_body_no_write (c c' : conn) (r : result unit) (ev : list event) :
  listen_body (S := unit) None c tt = (r, c', tt, ev) ->
  write_attempts ev = [].
Proof.
  unfold listen_body.
  destruct (check_for_message c) as [[[[|]|e] c1] ev1] eqn:Hk;
    pose proof (@reads_only_check _ _ _ _ Hk) as (_ & _ & Q1);
    try (intros [= <- <- <-]; now apply quiet_no_write).
  destruct (get_message c1) as [[[message|e] c2] ev2] eqn:Hg;
    pose proof (@reads_only_get_message _ _ _ _ Hg) as (_ & _ & Q2);
    intros [= <- <- <-]; rewrite write_attempts_app;
    now rewrite (quiet_no_write _ Q1), (quiet_no_write _ Q2).
Qed.

(** X25: a listener without a callback never writes.  In every state
    and on every input, a turn of a secondary's [listen_forever]
    attempts no write to its receiver, whether it connects, reads,
    disconnects or fails. *)
Theorem secondary_listener_never_writes (secondary : conn) :
  write_attempts (snd (ReceiverSyncService.secondary_listen_step secondary))
  = [].
Proof.
  unfold ReceiverSyncService.secondary_listen_step, listen_step.
  assert (Hbody : forall c ev1,
             write_attempts ev1 = [] ->
             write_attempts
               (snd (match listen_body (S := unit) None c tt with
                     | (Raise e, c2, s2, ev2) =>
                         if is_ConnectionResetError e then
                           match _disconnect c2 with
                           | (r, c3, ev3) => (r, c3, s2, ev1 ++ ev2 ++ ev3)
                           end
                         else (Raise e, c2, s2, ev1 ++ ev2)
                     | (Ok _, c2, s2, ev2) => (Ok tt, c2, s2, ev1 ++ ev2)
                     end)) = []).
  { intros c ev1 H1.
    destruct (listen_body (S := unit) None c tt) as [[[r c2] []] ev2] eqn:Hb.
    pose proof (listen_body_no_write _ Hb) as H2.
    destruct r as [u|e].
    - cbn [snd]. now rewrite write_attempts_app, H1, H2.
    - destruct (is_ConnectionResetError e).
      + pose proof (disconnect_no_write c2) as H3.
        destruct (_disconnect c2) as [[r3 c3] ev3]. cbn [snd] in *.
        now rewrite !write_attempts_app, H1, H2, H3.
      + cbn [snd]. now rewrite write_attempts_app, H1, H2. }
  destruct (connected secondary); cbn [negb].
  - unfold ret at 1. now apply Hbody.
  - unfold try_except, bind.
    pose proof (connect_no_write secondary) as H1.
    destruct (_connect_to_receiver secondary) as [[[u|e] c1] ev1].
    + unfold ret at 1. cbn [snd] in H1. rewrite app_nil_r. now apply Hbody.
    + cbn [snd] in H1. destruct (is_Exception e).
      * cbv [sleep emit ret]. cbn [snd app].
        rewrite write_attempts_app, H1. reflexivity.
      * exact H1.
Qed.
